(** * TLK v1 string tables: codec and bilingual merge

    A shallow embedding of [tlk.py] (the reader/writer of Infinity Engine
    TLK v1 files) and of [merge_tlks] from
    [generate-bilingual-bg1and2ee.py], followed by the properties of the
    wire format, of the decoder and of the merge policy.

    Python values are modelled as follows:
    - [bytes] objects are lists of [Byte.byte];
    - [str] objects are lists of Unicode code points ([N]);
    - [int] objects are unbounded integers ([Z]); the fixed widths of the
      file format only appear where [struct.pack] checks them;
    - a raised exception is the left summand of [result]. *)

From Stdlib Require Import String Ascii.
From Stdlib.Strings Require Import Byte.
From Stdlib Require Import ZArith NArith List Lia Bool.
Import ListNotations.
Open Scope Z_scope.

(** ** Python objects *)

Definition bytes := list byte.
Definition str := list N.

(** The two [ValueError]s raised by [TlkFile._parse], with the offending
    tag that the message reports. *)
Inductive value_error :=
| NotATlkFile (sig : bytes)
| UnsupportedVersion (ver : bytes).

Inductive exn :=
| ValueError (m : value_error)
| StructError
| IndexError.

Definition result (A : Type) : Type := (exn + A)%type.
Definition Ok {A} (a : A) : result A := inr a.
Definition raise {A} (e : exn) : result A := inl e.

Definition bind {A B} (m : result A) (k : A -> result B) : result B :=
  match m with
  | inl e => inl e
  | inr a => k a
  end.

Declare Scope result_scope.
Delimit Scope result_scope with result.
Notation "x <- m ;; k" := (bind m (fun x => k))
  (at level 61, m at next level, right associativity) : result_scope.
Notation "' p <- m ;; k" := (bind m (fun x => match x with p => k end))
  (at level 61, p pattern, m at next level, right associativity) : result_scope.
Open Scope result_scope.

Definition len {A} (l : list A) : Z := Z.of_nat (length l).

(** [l[i]] for a non-negative index. *)
Definition getitem {A} (l : list A) (i : nat) : result A :=
  match nth_error l i with
  | Some x => Ok x
  | None => raise IndexError
  end.

(** [l[a:b]]: both bounds are clamped to the sequence, a negative bound
    counts from the end, and an empty range gives the empty sequence. *)
Definition slice_index (n i : Z) : Z :=
  if i <? 0 then Z.max (i + n) 0 else Z.min i n.

Definition getslice {A} (l : list A) (a b : Z) : list A :=
  let lo := slice_index (len l) a in
  let hi := slice_index (len l) b in
  firstn (Z.to_nat (hi - lo)) (skipn (Z.to_nat lo) l).

(** [b.ljust(width, fill)] *)
Definition ljust (width : nat) (fill : byte) (b : bytes) : bytes :=
  b ++ repeat fill (width - length b).

Fixpoint list_eqb {A} (eqb : A -> A -> bool) (a b : list A) : bool :=
  match a, b with
  | [], [] => true
  | x :: a', y :: b' => eqb x y && list_eqb eqb a' b'
  | _, _ => false
  end.

Definition bytes_eqb : bytes -> bytes -> bool := list_eqb Byte.eqb.
Definition str_eqb : str -> str -> bool := list_eqb N.eqb.

(** A [str] literal of ASCII characters. *)
Definition lit (s : string) : str := map N_of_ascii (list_ascii_of_string s).

(** [bool(s)] for a [str]: true when [s] is not empty. *)
Definition truthy {A} (s : list A) : bool :=
  match s with
  | [] => false
  | _ :: _ => true
  end.

(** ** The [struct] module, little-endian standard sizes *)

Definition Z_of_byte (b : byte) : Z := Z.of_N (Byte.to_N b).

Definition byte_of_Z (z : Z) : byte :=
  match Byte.of_N (Z.to_N (z mod 256)) with
  | Some b => b
  | None => x00
  end.

Fixpoint to_le (n : nat) (x : Z) : bytes :=
  match n with
  | O => []
  | S n' => byte_of_Z x :: to_le n' (x / 256)
  end.

Fixpoint from_le (bs : bytes) : Z :=
  match bs with
  | [] => 0
  | b :: bs' => Z_of_byte b + 256 * from_le bs'
  end.

(** Format [H]: an integer outside [0, 65535] raises [struct.error]. *)
Definition pack_H (x : Z) : result bytes :=
  if (0 <=? x) && (x <=? 65535) then Ok (to_le 2 x) else raise StructError.

(** Format [I]: an integer outside [0, 2^32 - 1] raises [struct.error]. *)
Definition pack_I (x : Z) : result bytes :=
  if (0 <=? x) && (x <=? 4294967295) then Ok (to_le 4 x) else raise StructError.

(** Format [<n>s]: the argument is truncated or NUL-padded to [n] bytes. *)
Definition pack_s (n : nat) (b : bytes) : bytes :=
  firstn n b ++ repeat x00 (n - length (firstn n b)).

Definition _HDR_SIZE : Z := 18.
Definition _ENTRY_SIZE : Z := 26.

Definition TLK_SIGNATURE : bytes := [x54; x4c; x4b; x20].
Definition TLK_VERSION : bytes := [x56; x31; x20; x20].

Definition FLAG_TEXT : Z := 1.
Definition FLAG_SOUND : Z := 2.
Definition FLAG_TOKEN : Z := 4.

(** [struct.pack('<4s4sHII', sig, ver, lang, n, off)] *)
Definition pack_hdr (sig ver : bytes) (lang n off : Z) : result bytes :=
  b_lang <- pack_H lang ;;
  b_n <- pack_I n ;;
  b_off <- pack_I off ;;
  Ok (pack_s 4 sig ++ pack_s 4 ver ++ b_lang ++ b_n ++ b_off).

(** [struct.pack('<H8sIIII', flags, sound, vol, pitch, off, length)] *)
Definition pack_entry (fl : Z) (sound : bytes) (vol pitch off ln : Z)
  : result bytes :=
  b_fl <- pack_H fl ;;
  b_vol <- pack_I vol ;;
  b_pitch <- pack_I pitch ;;
  b_off <- pack_I off ;;
  b_ln <- pack_I ln ;;
  Ok (b_fl ++ pack_s 8 sound ++ b_vol ++ b_pitch ++ b_off ++ b_ln).

(** [struct.unpack_from] needs [size] bytes at [offset]; a shorter buffer
    raises [struct.error].  [field data off a b] is the byte range
    [off+a, off+b) of a buffer already known to be long enough. *)
Definition field (data : bytes) (off a b : Z) : bytes :=
  firstn (Z.to_nat (b - a)) (skipn (Z.to_nat (off + a)) data).

Definition unpack_hdr (data : bytes) (off : Z)
  : result (bytes * bytes * Z * Z * Z) :=
  if len data - off <? _HDR_SIZE then raise StructError
  else Ok (field data off 0 4,
           field data off 4 8,
           from_le (field data off 8 10),
           from_le (field data off 10 14),
           from_le (field data off 14 18)).

Definition unpack_entry (data : bytes) (off : Z)
  : result (Z * bytes * Z * Z * Z * Z) :=
  if len data - off <? _ENTRY_SIZE then raise StructError
  else Ok (from_le (field data off 0 2),
           field data off 2 10,
           from_le (field data off 10 14),
           from_le (field data off 14 18),
           from_le (field data off 18 22),
           from_le (field data off 22 26)).

(** ** Text encodings

    The [encoding] argument of the reader and the writer names a Python
    codec; both always call it with [errors='replace'], so a codec is a
    pair of total functions. *)

Record codec := mkCodec {
  str_encode : str -> bytes;    (* s.encode(encoding, errors='replace') *)
  bytes_decode : bytes -> str   (* b.decode(encoding, errors='replace') *)
}.

Definition all_bytes : list byte :=
  map (fun n => byte_of_Z (Z.of_nat n)) (seq 0 256).

(** A charmap codec is given by its decoding table; the encoding map is
    the inverse of that table.  With [errors='replace'] an undefined byte
    decodes to U+FFFD and an unencodable character encodes to [?]. *)
Definition charmap_encode_char (table : byte -> option N) (c : N)
  : option byte :=
  find (fun b => match table b with
                 | Some c' => N.eqb c' c
                 | None => false
                 end) all_bytes.

Definition charmap_encode (table : byte -> option N) (s : str) : bytes :=
  map (fun c => match charmap_encode_char table c with
                | Some b => b
                | None => x3f
                end) s.

Definition charmap_decode (table : byte -> option N) (b : bytes) : str :=
  map (fun x => match table x with
                | Some c => c
                | None => 65533%N
                end) b.

(** Modelled from the spec: the text codec is the collaborator that the
    caller supplies to the decoder and the encoder (a codepage with one
    byte per character, or UTF-8); it is not part of the repository, and
    the properties below hold for any [codec].  [cp1252] is the default of
    both scripts, with the decoding table of Python's standard library:
    bytes 0x80 to 0x9F map to the listed code points (five of them are
    undefined), every other byte maps to the code point of its value. *)
Definition cp1252_high : list (option N) :=
  [ Some 8364; None;      Some 8218; Some 402;  Some 8222; Some 8230;
    Some 8224; Some 8225; Some 710;  Some 8240; Some 352;  Some 8249;
    Some 338;  None;      Some 381;  None;      None;      Some 8216;
    Some 8217; Some 8220; Some 8221; Some 8226; Some 8211; Some 8212;
    Some 732;  Some 8482; Some 353;  Some 8250; Some 339;  None;
    Some 382;  Some 376 ]%N.

Definition cp1252_table (b : byte) : option N :=
  let n := Byte.to_N b in
  if (n <? 128)%N then Some n
  else if (n <? 160)%N then nth (N.to_nat (n - 128)) cp1252_high None
  else Some n.

Definition cp1252 : codec :=
  mkCodec (charmap_encode cp1252_table) (charmap_decode cp1252_table).

(** ** [tlk.py]: entries and tables *)

Record TlkEntry := mkTlkEntry {
  text : str;
  sound_resref : bytes;
  flags : Z;
  volume_variance : Z;
  pitch_variance : Z
}.

(** The defaults of the dataclass: [TlkEntry(text=t, flags=f)]. *)
Definition TlkEntry_default (t : str) (f : Z) : TlkEntry :=
  mkTlkEntry t (repeat x00 8) f 0 0.

Record TlkFile := mkTlkFile {
  language_id : Z;
  entries : list TlkEntry
}.

(** ** [TlkFile._parse] *)

(** The body of [for i in range(num_entries)], the entries read so far
    being [acc]. *)
Fixpoint parse_entries (encoding : codec) (data : bytes) (string_base : Z)
    (n : nat) (i : Z) (acc : list TlkEntry) : result (list TlkEntry) :=
  match n with
  | O => Ok acc
  | S n' =>
      let off := _HDR_SIZE + i * _ENTRY_SIZE in
      '(fl, sound, vol_var, pitch_var, str_off, str_len)
        <- unpack_entry data off ;;
      let raw_str :=
        getslice data (string_base + str_off)
                      (string_base + str_off + str_len) in
      let txt := bytes_decode encoding raw_str in
      let entry := mkTlkEntry txt sound fl vol_var pitch_var in
      parse_entries encoding data string_base n' (i + 1) (acc ++ [entry])
  end.

Definition _parse (data : bytes) (encoding : codec) : result TlkFile :=
  '(sig, ver, lang_id, num_entries, str_offset) <- unpack_hdr data 0 ;;
  if negb (bytes_eqb sig TLK_SIGNATURE) then
    raise (ValueError (NotATlkFile sig))
  else if negb (bytes_eqb ver TLK_VERSION) then
    raise (ValueError (UnsupportedVersion ver))
  else
    es <- parse_entries encoding data str_offset
            (Z.to_nat num_entries) 0 [] ;;
    Ok (mkTlkFile lang_id es).

(** ** [TlkFile.to_bytes] *)

(** [for s in encoded_strings: string_offsets.append(len(string_block));
    string_block.extend(s)] *)
Fixpoint build_string_block (encoded_strings : list bytes)
    (string_offsets : list Z) (string_block : bytes) : list Z * bytes :=
  match encoded_strings with
  | [] => (string_offsets, string_block)
  | s :: rest =>
      build_string_block rest
        (string_offsets ++ [len string_block]) (string_block ++ s)
  end.

(** The flags recomputed from the content of the entry. *)
Definition recalc_flags (entry : TlkEntry) : Z :=
  if truthy (text entry) then Z.lor (flags entry) FLAG_TEXT
  else Z.land (flags entry) (Z.lnot FLAG_TEXT).

Definition enumerate {A} (l : list A) : list (nat * A) :=
  combine (seq 0 (length l)) l.

(** [for i, entry in enumerate(self.entries)], the table built so far
    being [entry_table]. *)
Fixpoint build_entry_table (string_offsets : list Z)
    (encoded_strings : list bytes) (ies : list (nat * TlkEntry))
    (entry_table : bytes) : result bytes :=
  match ies with
  | [] => Ok entry_table
  | (i, entry) :: rest =>
      let sound := ljust 8 x00 (firstn 8 (sound_resref entry)) in
      let fl := recalc_flags entry in
      off <- getitem string_offsets i ;;
      enc <- getitem encoded_strings i ;;
      packed <- pack_entry fl sound (volume_variance entry)
                  (pitch_variance entry) off (len enc) ;;
      build_entry_table string_offsets encoded_strings rest
        (entry_table ++ packed)
  end.

Definition to_bytes (self : TlkFile) (encoding : codec) : result bytes :=
  let encoded_strings :=
    map (fun entry => str_encode encoding (text entry)) (entries self) in
  let '(string_offsets, string_block) :=
    build_string_block encoded_strings [] [] in
  let num_entries := len (entries self) in
  let str_offset := _HDR_SIZE + num_entries * _ENTRY_SIZE in
  header <- pack_hdr TLK_SIGNATURE TLK_VERSION (language_id self)
              num_entries str_offset ;;
  entry_table <- build_entry_table string_offsets encoded_strings
                   (enumerate (entries self)) [] ;;
  Ok (header ++ entry_table ++ string_block).

(** ** [generate-bilingual-bg1and2ee.py]: [merge_tlks] *)

(** [c.isspace()] for one character: the Unicode white space that
    [str.strip()] without argument removes. *)
Definition isspace (c : N) : bool :=
  ((9 <=? c) && (c <=? 13) || (28 <=? c) && (c <=? 32)
   || (c =? 133) || (c =? 160) || (c =? 5760)
   || (8192 <=? c) && (c <=? 8202)
   || (c =? 8232) || (c =? 8233) || (c =? 8239) || (c =? 8287)
   || (c =? 12288))%N.

Fixpoint lstrip (s : str) : str :=
  match s with
  | [] => []
  | c :: s' => if isspace c then lstrip s' else s
  end.

Definition rstrip (s : str) : str := rev (lstrip (rev s)).

(** [s.strip()] *)
Definition strip (s : str) : str := rstrip (lstrip s).

(** What [merge_tlks] prints. *)
Inductive output :=
| CountMismatchWarning (primary_len secondary_len : Z)
| MergedSummary (total combined kept empty : Z).

(** The [stats] dictionary. *)
Record stats := mkStats {
  st_total : Z;
  st_combined : Z;
  st_kept : Z;
  st_empty : Z
}.

(** The four outcomes of the decision on one pair of entries. *)
Inductive outcome := KeepEmpty | KeepPrimary | KeepSecondary | Combine.

(** The chain of tests of the loop body, on the stripped texts. *)
Definition decide_outcome (p_text s_text : str) : outcome :=
  if negb (truthy p_text) && negb (truthy s_text) then KeepEmpty
  else if str_eqb p_text s_text || negb (truthy s_text) then KeepPrimary
  else if negb (truthy p_text) then KeepSecondary
  else Combine.

(** The entry appended to [merged.entries] for one pair. *)
Definition merge_entry (p_entry s_entry : TlkEntry) (separator : str)
    (swap : bool) : TlkEntry :=
  let p_text := strip (text p_entry) in
  let s_text := strip (text s_entry) in
  match decide_outcome p_text s_text with
  | KeepEmpty =>
      mkTlkEntry [] (sound_resref p_entry)
        (Z.land (flags p_entry) (Z.lnot FLAG_TEXT))
        (volume_variance p_entry) (pitch_variance p_entry)
  | KeepPrimary =>
      mkTlkEntry (text p_entry) (sound_resref p_entry) (flags p_entry)
        (volume_variance p_entry) (pitch_variance p_entry)
  | KeepSecondary =>
      mkTlkEntry (text s_entry) (sound_resref p_entry) (flags p_entry)
        (volume_variance p_entry) (pitch_variance p_entry)
  | Combine =>
      let first := if swap then text s_entry else text p_entry in
      let second := if swap then text p_entry else text s_entry in
      let combined := first ++ separator ++ second in
      mkTlkEntry combined (sound_resref p_entry)
        (Z.lor (flags p_entry) FLAG_TEXT)
        (volume_variance p_entry) (pitch_variance p_entry)
  end.

(** The counter of [stats] that the same branch increments. *)
Definition count_outcome (o : outcome) (st : stats) : stats :=
  match o with
  | KeepEmpty =>
      mkStats (st_total st) (st_combined st) (st_kept st) (st_empty st + 1)
  | KeepPrimary | KeepSecondary =>
      mkStats (st_total st) (st_combined st) (st_kept st + 1) (st_empty st)
  | Combine =>
      mkStats (st_total st) (st_combined st + 1) (st_kept st) (st_empty st)
  end.

(** [for i in range(count)], from index [i] on, [n] iterations left. *)
Fixpoint merge_loop (primary secondary : TlkFile) (separator : str)
    (swap : bool) (n i : nat) (merged : list TlkEntry) (st : stats)
  : result (list TlkEntry * stats) :=
  match n with
  | O => Ok (merged, st)
  | S n' =>
      p_entry <- getitem (entries primary) i ;;
      s_entry <- getitem (entries secondary) i ;;
      let o := decide_outcome (strip (text p_entry)) (strip (text s_entry)) in
      merge_loop primary secondary separator swap n' (S i)
        (merged ++ [merge_entry p_entry s_entry separator swap])
        (count_outcome o st)
  end.

(** [merge_tlks] returns what it printed together with its result; the
    summary line is only printed when the loop has not raised. *)
Definition merge_tlks (primary secondary : TlkFile) (separator : str)
    (swap : bool) : list output * result TlkFile :=
  let lp := len (entries primary) in
  let ls := len (entries secondary) in
  let warning :=
    if negb (lp =? ls) then [CountMismatchWarning lp ls] else [] in
  let count := Z.min lp ls in
  match merge_loop primary secondary separator swap (Z.to_nat count) O []
          (mkStats count 0 0 0) with
  | inl e => (warning, inl e)
  | inr (merged, st) =>
      (warning ++ [MergedSummary (st_total st) (st_combined st)
                     (st_kept st) (st_empty st)],
       Ok (mkTlkFile (language_id primary) merged))
  end.

(** ** Sample data *)

(** The separator that the command line passes by default. *)
Definition dash_separator : str := [10; 45; 45; 45; 10]%N.

Definition nur_primaer : str := lit "Nur Prim" ++ [228%N] ++ lit "r".

(** The tables of the merge self-test of [main]. *)
Definition test_pairs : list (str * str) :=
  [ (lit "Hallo Welt", lit "Hello World");
    ([], []);
    (lit "Gleicher Text", lit "Gleicher Text");
    (nur_primaer, []) ].

Definition test_entry (s : str) : TlkEntry :=
  TlkEntry_default s (if truthy s then FLAG_TEXT else 0).

Definition test_primary : TlkFile :=
  mkTlkFile 0 (map (fun ps => test_entry (fst ps)) test_pairs).

Definition test_secondary : TlkFile :=
  mkTlkFile 0 (map (fun ps => test_entry (snd ps)) test_pairs).

(** A secondary table with fewer entries than [test_primary], and a pair
    of tables whose texts carry white space around them. *)
Definition short_secondary : TlkFile :=
  mkTlkFile 1 [test_entry (lit "Hello World")].

Definition padded_primary : TlkFile :=
  mkTlkFile 3 [mkTlkEntry (lit "  Hallo Welt ") [x41; x42] 3 5 6].

Definition padded_secondary : TlkFile :=
  mkTlkFile 4 [mkTlkEntry (lit " Hallo Welt") [x43] 1 7 8].

(** A pair of tables in which the primary text is blank and the
    secondary text is not, so that the secondary text is the one kept. *)
Definition silent_primary : TlkFile :=
  mkTlkFile 9 [mkTlkEntry (lit " ") [x53; x4e; x44] 2 11 12].

Definition spoken_secondary : TlkFile :=
  mkTlkFile 1 [mkTlkEntry (lit "Only secondary") [x58] 1 21 22].

(** ** The layout of an encoded table

    The closed form of what [to_bytes] builds with its loops, and the
    condition under which every [struct.pack] call of it succeeds. *)

Definition u16 (x : Z) : Prop := 0 <= x <= 65535.
Definition u32 (x : Z) : Prop := 0 <= x <= 4294967295.

Definition encoded (encoding : codec) (es : list TlkEntry) : list bytes :=
  map (fun entry => str_encode encoding (text entry)) es.

(** The offset of each string in the block that starts at [start]. *)
Fixpoint offsets_from (start : Z) (ss : list bytes) : list Z :=
  match ss with
  | [] => []
  | s :: rest => start :: offsets_from (start + len s) rest
  end.

Definition entry_record (entry : TlkEntry) (off ln : Z) : bytes :=
  to_le 2 (recalc_flags entry) ++ pack_s 8 (sound_resref entry)
  ++ to_le 4 (volume_variance entry) ++ to_le 4 (pitch_variance entry)
  ++ to_le 4 off ++ to_le 4 ln.

Fixpoint entry_records (encoding : codec) (es : list TlkEntry) (off : Z)
  : bytes :=
  match es with
  | [] => []
  | e :: rest =>
      let ln := len (str_encode encoding (text e)) in
      entry_record e off ln ++ entry_records encoding rest (off + ln)
  end.

Definition header_bytes (self : TlkFile) : bytes :=
  TLK_SIGNATURE ++ TLK_VERSION ++ to_le 2 (language_id self)
  ++ to_le 4 (len (entries self))
  ++ to_le 4 (_HDR_SIZE + len (entries self) * _ENTRY_SIZE).

Definition layout (self : TlkFile) (encoding : codec) : bytes :=
  header_bytes self
  ++ entry_records encoding (entries self) 0
  ++ concat (encoded encoding (entries self)).

Definition packable_entry (e : TlkEntry) : Prop :=
  u16 (flags e) /\ u32 (volume_variance e) /\ u32 (pitch_variance e).

(** Every integer that [to_bytes] packs fits its field. *)
Definition packable (self : TlkFile) (encoding : codec) : Prop :=
  u16 (language_id self)
  /\ u32 (_HDR_SIZE + len (entries self) * _ENTRY_SIZE)
  /\ Forall packable_entry (entries self)
  /\ Forall u32 (offsets_from 0 (encoded encoding (entries self)))
  /\ Forall (fun s => u32 (len s)) (encoded encoding (entries self)).

(** The entry that the reader builds from the record of [e]. *)
Definition reread (encoding : codec) (e : TlkEntry) : TlkEntry :=
  mkTlkEntry (bytes_decode encoding (str_encode encoding (text e)))
    (pack_s 8 (sound_resref e)) (recalc_flags e)
    (volume_variance e) (pitch_variance e).

(** The fields of an encoded buffer, read the way the decoder reads
    them. *)
Definition entry_offset (i : nat) : Z := _HDR_SIZE + Z.of_nat i * _ENTRY_SIZE.

Definition wire_string_block_offset (buf : bytes) : result Z :=
  '(_, _, _, _, str_offset) <- unpack_hdr buf 0 ;; Ok str_offset.

Definition wire_flags (buf : bytes) (i : nat) : result Z :=
  '(fl, _, _, _, _, _) <- unpack_entry buf (entry_offset i) ;; Ok fl.

Definition wire_sound_resref (buf : bytes) (i : nat) : result bytes :=
  '(_, sound, _, _, _, _) <- unpack_entry buf (entry_offset i) ;; Ok sound.

Definition wire_string_offset (buf : bytes) (i : nat) : result Z :=
  '(_, _, _, _, str_off, _) <- unpack_entry buf (entry_offset i) ;;
  Ok str_off.

Definition wire_string_length (buf : bytes) (i : nat) : result Z :=
  '(_, _, _, _, _, str_len) <- unpack_entry buf (entry_offset i) ;;
  Ok str_len.

(** A text that the codec encodes without loss. *)
Definition representable (encoding : codec) (s : str) : Prop :=
  bytes_decode encoding (str_encode encoding s) = s.

(** [e'] is [e] in every field, up to the width of the sound resource name
    and to bit 0 of the flags, which tells whether there is text. *)
Definition roundtrip_entry (e e' : TlkEntry) : Prop :=
  text e' = text e
  /\ sound_resref e' = ljust 8 x00 (firstn 8 (sound_resref e))
  /\ volume_variance e' = volume_variance e
  /\ pitch_variance e' = pitch_variance e
  /\ (forall k, 1 <= k -> Z.testbit (flags e') k = Z.testbit (flags e) k)
  /\ Z.testbit (flags e') 0 = truthy (text e).

(** A table whose flags disagree with its texts, with sound resource
    names shorter and longer than eight bytes, with a text that contains
    the separator and with a text outside ASCII. *)
Definition sample_table : TlkFile :=
  mkTlkFile 5
    [ mkTlkEntry (lit "Hallo Welt" ++ dash_separator ++ lit "Hello World")
        [x41; x42] 2 7 9;
      mkTlkEntry []
        [x30; x31; x32; x33; x34; x35; x36; x37; x38; x39] 5 0 0;
      mkTlkEntry nur_primaer [] 1 4294967295 0 ].

(** The entry that the decoder builds from the record at index [i] of a
    buffer whose string block starts at [string_base]: its text is decoded
    from the bytes of the string range that the buffer holds. *)
Definition entry_at (encoding : codec) (data : bytes) (string_base : Z)
    (i : nat) : TlkEntry :=
  let off := entry_offset i in
  let str_off := from_le (field data off 18 22) in
  let str_len := from_le (field data off 22 26) in
  mkTlkEntry
    (bytes_decode encoding
       (firstn (Z.to_nat str_len)
          (skipn (Z.to_nat (string_base + str_off)) data)))
    (field data off 2 10)
    (from_le (field data off 0 2))
    (from_le (field data off 10 14))
    (from_le (field data off 14 18)).

(** The string range of entry [i], as the decoder computes it. *)
Definition string_range (data : bytes) (i : nat) : result (Z * Z) :=
  '(_, _, _, _, string_base) <- unpack_hdr data 0 ;;
  '(_, _, _, _, str_off, str_len) <- unpack_entry data (entry_offset i) ;;
  Ok (string_base + str_off, string_base + str_off + str_len).

(** A buffer of 46 bytes: a header for one entry, the record of an entry
    whose string is said to take 100 bytes from offset 0 of the block, and
    a string block of 2 bytes. *)
Definition truncated_buffer : bytes :=
  TLK_SIGNATURE ++ TLK_VERSION ++ to_le 2 0 ++ to_le 4 1 ++ to_le 4 44
  ++ to_le 2 1 ++ repeat x00 8 ++ to_le 4 0 ++ to_le 4 0
  ++ to_le 4 0 ++ to_le 4 100
  ++ [x48; x69].

(** Four bytes that are not the signature, and nothing else. *)
Definition four_bytes : bytes := [x58; x58; x58; x58].

(** A complete header of an empty table, with another version tag. *)
Definition version_2_header : bytes :=
  TLK_SIGNATURE ++ [x56; x32; x20; x20] ++ to_le 2 0 ++ to_le 4 0
  ++ to_le 4 18.

(** ** Auxiliary notions of the merge *)

(** Every character of [s] is white space (in particular, [s] may be
    empty). *)
Definition blank (s : str) : Prop := forallb isspace s = true.

(** The merged entry of a pair of entries at the same index. *)
Definition merge_pair (separator : str) (swap : bool)
    (ps : TlkEntry * TlkEntry) : TlkEntry :=
  merge_entry (fst ps) (snd ps) separator swap.

(** The warning that [merge_tlks] prints first, if any. *)
Definition mismatch_warning (P S : TlkFile) : list output :=
  if negb (len (entries P) =? len (entries S))
  then [CountMismatchWarning (len (entries P)) (len (entries S))]
  else [].

(** The table of [run_self_test]. *)
Definition self_test_table : TlkFile :=
  mkTlkFile 0
    (map test_entry
       [ lit "Hello, world!";
         lit "You have selected an impressive lock.";
         [];
         lit "Minsc must lead " ++ [226; 8364; 8221]%N
           ++ lit " swords for everyone!";
         lit "Go for the eyes, Boo! GO FOR THE EYES!" ]).

(** ** [tlk.py]: the accessors of an entry and [TlkFile.dump] *)

(** [bool(self.flags & FLAG_TEXT)] *)
Definition has_text (self : TlkEntry) : bool :=
  negb (Z.land (flags self) FLAG_TEXT =? 0).

(** [bool(self.flags & FLAG_SOUND)] *)
Definition has_sound (self : TlkEntry) : bool :=
  negb (Z.land (flags self) FLAG_SOUND =? 0).

(** [b.rstrip(b'\x00')] *)
Fixpoint lstrip_nul (b : bytes) : bytes :=
  match b with
  | [] => []
  | x :: b' => if Byte.eqb x x00 then lstrip_nul b' else b
  end.

Definition rstrip_nul (b : bytes) : bytes := rev (lstrip_nul (rev b)).

(** [b.decode('ascii', errors='replace')]: a byte above 127 becomes
    U+FFFD. *)
Definition decode_ascii (b : bytes) : str :=
  map (fun x => if (Byte.to_N x <? 128)%N then Byte.to_N x else 65533%N) b.

(** What [dump] prints: the first line, then one line per listed entry
    with the values that the line formats. *)
Inductive dump_line :=
| DumpHeader (total lang : Z)
| DumpEntry (i : Z) (fl : Z) (sound : str) (txt : str).

(** [min(total, max_entries) if max_entries else total]: [None] and [0]
    are both false. *)
Definition dump_limit (total : Z) (max_entries : option Z) : Z :=
  match max_entries with
  | None => total
  | Some m => if m =? 0 then total else Z.min total m
  end.

(** [for i in range(limit)], from index [i] on, [n] iterations left, the
    lines printed so far being [out]. *)
Fixpoint dump_loop (self : TlkFile) (show_empty : bool) (n i : nat)
    (out : list dump_line) : list dump_line * result unit :=
  match n with
  | O => (out, Ok tt)
  | S n' =>
      match getitem (entries self) i with
      | inl ex => (out, inl ex)
      | inr e =>
          if negb show_empty && negb (truthy (strip (text e))) then
            dump_loop self show_empty n' (S i) out
          else
            let sound := decode_ascii (rstrip_nul (sound_resref e)) in
            dump_loop self show_empty n' (S i)
              (out ++ [DumpEntry (Z.of_nat i) (flags e) sound
                         (getslice (text e) 0 80)])
      end
  end.

Definition dump (self : TlkFile) (max_entries : option Z)
    (show_empty : bool) : list dump_line * result unit :=
  let total := len (entries self) in
  let limit := dump_limit total max_entries in
  dump_loop self show_empty (Z.to_nat limit) O
    [DumpHeader total (language_id self)].

(** ** [generate-bilingual-bg1and2ee.py]: [parse_separator] *)

(** Does [s] start with [p]? *)
Fixpoint starts_with (p s : str) : bool :=
  match p, s with
  | [], _ => true
  | x :: p', y :: s' => N.eqb x y && starts_with p' s'
  | _ :: _, [] => false
  end.

(** The scan of [s.replace(old, new)] for a non-empty [old], from left to
    right: at a match the occurrence is replaced and its [skip] remaining
    characters are passed over, so that matches do not overlap. *)
Fixpoint replace_scan (old new : str) (skip : nat) (s : str) : str :=
  match s with
  | [] => []
  | c :: s' =>
      match skip with
      | S k => replace_scan old new k s'
      | O =>
          if starts_with old s
          then new ++ replace_scan old new (length old - 1) s'
          else c :: replace_scan old new 0 s'
      end
  end.

(** [s.replace(old, new)]; an empty [old] matches before every character
    and at the end. *)
Definition replace (old new s : str) : str :=
  match old with
  | [] => new ++ flat_map (fun c => c :: new) s
  | _ :: _ => replace_scan old new 0 s
  end.

Definition backslash : N := 92%N.

(** [sep_str.replace('\\n', '\n').replace('\\t', '\t')] *)
Definition parse_separator (sep_str : str) : str :=
  replace [backslash; 116%N] [9%N]
    (replace [backslash; 110%N] [10%N] sep_str).

(** The default of the [--separator] option. *)
Definition default_separator_argument : str :=
  [backslash; 110; 45; 45; 45; backslash; 110]%N.

(** ** Auxiliary notions of the added properties *)

(** The outcome that the merge decides for a pair of entries. *)
Definition pair_outcome (ps : TlkEntry * TlkEntry) : outcome :=
  decide_outcome (strip (text (fst ps))) (strip (text (snd ps))).

Definition is_combine (o : outcome) : bool :=
  match o with Combine => true | _ => false end.

Definition is_kept (o : outcome) : bool :=
  match o with KeepPrimary | KeepSecondary => true | _ => false end.

Definition is_empty (o : outcome) : bool :=
  match o with KeepEmpty => true | _ => false end.

(** How many pairs have an outcome that [f] selects. *)
Definition count_pairs (f : outcome -> bool)
    (l : list (TlkEntry * TlkEntry)) : Z :=
  len (filter (fun ps => f (pair_outcome ps)) l).

(** [a] immediately followed by [b] somewhere in [s]. *)
Fixpoint has_pair (a b : N) (s : str) : bool :=
  match s with
  | [] => false
  | c :: s' =>
      (N.eqb c a && match s' with
                    | d :: _ => N.eqb d b
                    | [] => false
                    end)
      || has_pair a b s'
  end.

(** Is the entry at index [i] listed by [dump]? *)
Definition dump_lists (show_empty : bool) (e : TlkEntry) : bool :=
  show_empty || truthy (strip (text e)).

(** The line that [dump] prints for entry [e] at index [i]. *)
Definition dump_entry_line (i : nat) (e : TlkEntry) : dump_line :=
  DumpEntry (Z.of_nat i) (flags e)
    (decode_ascii (rstrip_nul (sound_resref e)))
    (firstn 80 (text e)).

(** The lines that [dump] prints for the entries of [ies], given with
    their indices. *)
Definition dump_lines (show_empty : bool) (ies : list (nat * TlkEntry))
  : list dump_line :=
  map (fun ie => dump_entry_line (fst ie) (snd ie))
    (filter (fun ie => dump_lists show_empty (snd ie)) ies).

(** A printed line without the flags that it shows. *)
Definition line_without_flags (l : dump_line) : dump_line :=
  match l with
  | DumpHeader total lang => DumpHeader total lang
  | DumpEntry i _ sound txt => DumpEntry i 0 sound txt
  end.

(** A table that [to_bytes] refuses: the flags of its entry take more
    than 16 bits. *)
Definition oversized_table : TlkFile :=
  mkTlkFile 0 [mkTlkEntry (lit "x") [] 70000 0 0].

(** A header that announces two entries, followed by one record only. *)
Definition one_record_short : bytes :=
  TLK_SIGNATURE ++ TLK_VERSION ++ to_le 2 0 ++ to_le 4 2 ++ to_le 4 70
  ++ to_le 2 1 ++ repeat x00 8 ++ to_le 4 0 ++ to_le 4 0
  ++ to_le 4 0 ++ to_le 4 0.

(** A table with a blank entry, a sound resource name and a long text. *)
Definition dump_table : TlkFile :=
  mkTlkFile 2
    [ mkTlkEntry (lit "Hallo") [x41; x42; x00; x00] 3 0 0;
      mkTlkEntry (lit "  ") [] 1 0 0;
      mkTlkEntry (lit "Welt") [xff] 1 0 0 ].

(** * Properties *)

(** ** Lists and lookups *)

Lemma getitem_Some {A} (l : list A) i x :
  nth_error l i = Some x -> getitem l i = Ok x.
Proof. unfold getitem. intros ->. reflexivity. Qed.

Lemma nth_error_combine {A B} (l : list A) (l' : list B) i :
  nth_error (combine l l') i =
  match nth_error l i, nth_error l' i with
  | Some a, Some b => Some (a, b)
  | _, _ => None
  end.
Proof.
  revert l' i. induction l as [|a l IH]; intros [|b l'] [|i]; simpl;
    try reflexivity.
  - destruct (nth_error l i); reflexivity.
  - apply IH.
Qed.

Lemma firstn_skipn_S {A} (l : list A) i x n :
  nth_error l i = Some x ->
  firstn (S n) (skipn i l) = x :: firstn n (skipn (S i) l).
Proof.
  revert i. induction l as [|a l IH]; intros [|i] H; simpl in *;
    try discriminate.
  - inversion H. reflexivity.
  - rewrite <- (IH i H). reflexivity.
Qed.

(** ** The merge loop *)

Lemma merge_loop_spec P S sep swap n : forall i acc st,
  (i + n <= length (combine (entries P) (entries S)))%nat ->
  exists st',
    merge_loop P S sep swap n i acc st =
    Ok (acc ++ map (merge_pair sep swap)
                 (firstn n (skipn i (combine (entries P) (entries S)))),
        st')
    /\ st_total st' = st_total st.
Proof.
  induction n as [|n IH]; intros i acc st Hn; cbn [merge_loop].
  - exists st. simpl. rewrite app_nil_r. split; reflexivity.
  - destruct (nth_error (combine (entries P) (entries S)) i)
      as [[p s]|] eqn:E.
    2:{ apply nth_error_None in E. lia. }
    pose proof E as E'. rewrite nth_error_combine in E'.
    destruct (nth_error (entries P) i) as [p'|] eqn:Ep; try discriminate.
    destruct (nth_error (entries S) i) as [s'|] eqn:Es; try discriminate.
    inversion E'; subst p' s'.
    rewrite (getitem_Some _ _ _ Ep), (getitem_Some _ _ _ Es).
    cbn [bind Ok].
    destruct (IH (Datatypes.S i)
                (acc ++ [merge_entry p s sep swap])
                (count_outcome
                   (decide_outcome (strip (text p)) (strip (text s))) st))
      as [st' [Hl Ht]]; [lia|].
    exists st'. split.
    + rewrite Hl, (firstn_skipn_S _ _ _ _ E). simpl.
      rewrite <- app_assoc. reflexivity.
    + rewrite Ht. destruct (decide_outcome _ _); reflexivity.
Qed.

(** [merge_tlks] never raises: it prints the warning (if any) and the
    summary, and returns the table of the pairwise merged entries. *)
Lemma merge_tlks_spec P S sep swap :
  exists c k e,
    merge_tlks P S sep swap =
    (mismatch_warning P S ++
       [MergedSummary (Z.min (len (entries P)) (len (entries S))) c k e],
     Ok (mkTlkFile (language_id P)
           (map (merge_pair sep swap) (combine (entries P) (entries S))))).
Proof.
  unfold merge_tlks, mismatch_warning.
  set (count := Z.min (len (entries P)) (len (entries S))).
  assert (Hc : Z.to_nat count = length (combine (entries P) (entries S))).
  { unfold count, len. rewrite length_combine. lia. }
  destruct (merge_loop_spec P S sep swap (Z.to_nat count) 0 []
              (mkStats count 0 0 0)) as [st' [Hl Ht]]; [lia|].
  rewrite Hl. simpl in Ht.
  exists (st_combined st'), (st_kept st'), (st_empty st').
  cbn [Ok app skipn]. rewrite Ht, Hc, firstn_all. reflexivity.
Qed.

Lemma merge_tlks_nth P S sep swap i p s :
  nth_error (entries P) i = Some p ->
  nth_error (entries S) i = Some s ->
  exists out merged,
    merge_tlks P S sep swap = (out, Ok merged)
    /\ nth_error (entries merged) i = Some (merge_entry p s sep swap).
Proof.
  intros Hp Hs.
  destruct (merge_tlks_spec P S sep swap) as (c & k & e & H).
  rewrite H. eexists _, _. split; [reflexivity|]. simpl.
  rewrite nth_error_map, nth_error_combine, Hp, Hs. reflexivity.
Qed.

(** ** White space and [strip] *)

Lemma lstrip_nil_iff s : lstrip s = [] <-> blank s.
Proof.
  unfold blank. induction s as [|c s IH]; simpl.
  - tauto.
  - destruct (isspace c); simpl; [exact IH|]. split; discriminate.
Qed.

Lemma forallb_rev {A} (f : A -> bool) l : forallb f (rev l) = forallb f l.
Proof.
  induction l as [|a l IH]; simpl; [reflexivity|].
  rewrite forallb_app, IH. simpl. rewrite andb_true_r. apply andb_comm.
Qed.

Lemma blank_lstrip s : blank (lstrip s) <-> blank s.
Proof.
  unfold blank. induction s as [|c s IH]; simpl; [tauto|].
  destruct (isspace c) eqn:E; simpl; [exact IH|].
  rewrite E. simpl. tauto.
Qed.

Lemma strip_nil_iff s : strip s = [] <-> blank s.
Proof.
  unfold strip, rstrip. rewrite <- blank_lstrip.
  split.
  - intros H. apply (f_equal (@rev N)) in H. rewrite rev_involutive in H.
    simpl in H. apply lstrip_nil_iff in H. unfold blank in *.
    rewrite forallb_rev in H. exact H.
  - intros H. unfold blank in H. rewrite <- forallb_rev in H.
    apply lstrip_nil_iff in H. rewrite H. reflexivity.
Qed.

Lemma truthy_false_iff {A} (s : list A) : truthy s = false <-> s = [].
Proof. destruct s; simpl; split; congruence. Qed.

Lemma list_eqb_eq {A} (eqb : A -> A -> bool) :
  (forall x y, eqb x y = true <-> x = y) ->
  forall a b, list_eqb eqb a b = true <-> a = b.
Proof.
  intros Heqb. induction a as [|x a IH]; intros [|y b]; simpl;
    try (split; congruence).
  rewrite andb_true_iff, Heqb, IH. split.
  - intros [-> ->]. reflexivity.
  - intros H. inversion H. split; reflexivity.
Qed.

Lemma str_eqb_eq a b : str_eqb a b = true <-> a = b.
Proof. apply list_eqb_eq. apply N.eqb_eq. Qed.

Lemma bytes_eqb_eq a b : bytes_eqb a b = true <-> a = b.
Proof.
  apply list_eqb_eq. intros x y. split.
  - apply Byte.byte_dec_bl.
  - apply Byte.byte_dec_lb.
Qed.

Lemma truthy_strip_false s : truthy (strip s) = false <-> blank s.
Proof.
  split; intros H.
  - apply strip_nil_iff, truthy_false_iff, H.
  - apply truthy_false_iff, strip_nil_iff, H.
Qed.

Lemma truthy_strip_true s : truthy (strip s) = true <-> ~ blank s.
Proof.
  split.
  - intros H Hb. apply truthy_strip_false in Hb. congruence.
  - intros H. destruct (truthy (strip s)) eqn:E; [reflexivity|].
    apply truthy_strip_false in E. contradiction.
Qed.

(** The decision of the loop body in terms of the texts themselves. *)
Lemma decide_outcome_spec p s :
  match decide_outcome (strip p) (strip s) with
  | KeepEmpty => blank p /\ blank s
  | KeepPrimary => ~ blank p /\ (strip p = strip s \/ blank s)
  | KeepSecondary => blank p /\ ~ blank s
  | Combine => ~ blank p /\ ~ blank s /\ strip p <> strip s
  end.
Proof.
  unfold decide_outcome.
  destruct (truthy (strip p)) eqn:Ep; destruct (truthy (strip s)) eqn:Es;
    simpl.
  - apply truthy_strip_true in Ep, Es.
    destruct (str_eqb (strip p) (strip s)) eqn:E; simpl.
    + apply str_eqb_eq in E. tauto.
    + repeat split; try assumption. intros H. apply str_eqb_eq in H.
      congruence.
  - rewrite orb_true_r.
    apply truthy_strip_true in Ep. apply truthy_strip_false in Es. tauto.
  - pose proof Ep as Ep'. apply truthy_false_iff in Ep'.
    apply truthy_strip_false in Ep. apply truthy_strip_true in Es.
    destruct (str_eqb (strip p) (strip s)) eqn:E; simpl.
    + apply str_eqb_eq in E. rewrite Ep' in E. symmetry in E.
      apply strip_nil_iff in E. tauto.
    + tauto.
  - apply truthy_strip_false in Ep, Es. tauto.
Qed.


Lemma testbit0_clear f : Z.testbit (Z.land f (Z.lnot FLAG_TEXT)) 0 = false.
Proof.
  rewrite Z.land_spec, Z.lnot_spec by lia. simpl. apply andb_false_r.
Qed.

(** ** The merge policy *)

(** C7: the entry merged at an index follows the decision table on
    (primary empty?, secondary empty?, texts equal?), emptiness and
    equality being those of the stripped texts: both empty gives an empty
    text with bit 0 of the flags cleared; equal texts or an empty secondary
    keep the primary; an empty primary keeps the secondary; otherwise the
    two texts are joined by the separator, the secondary first when [swap]
    is set.  With the separator [\n---\n], the pair ("Hallo Welt",
    "Hello World") gives "Hallo Welt\n---\nHello World", and
    "Hello World\n---\nHallo Welt" when [swap] is set; ("Nur Primär", "")
    gives "Nur Primär"; ("Gleicher Text", "Gleicher Text") gives
    "Gleicher Text"; ("", "") gives an entry with empty text whose flags
    have bit 0 cleared. *)
Theorem merge_scenarios (P S : TlkFile) (i : nat) (p s : TlkEntry) :
  nth_error (entries P) i = Some p ->
  nth_error (entries S) i = Some s ->
  exists out out' merged merged' e e',
    merge_tlks P S dash_separator false = (out, Ok merged)
    /\ merge_tlks P S dash_separator true = (out', Ok merged')
    /\ nth_error (entries merged) i = Some e
    /\ nth_error (entries merged') i = Some e'
    /\ (blank (text p) -> blank (text s) ->
        text e = [] /\ Z.testbit (flags e) 0 = false
        /\ text e' = [] /\ Z.testbit (flags e') 0 = false)
    /\ (~ blank (text p) ->
        strip (text p) = strip (text s) \/ blank (text s) ->
        text e = text p /\ text e' = text p)
    /\ (blank (text p) -> ~ blank (text s) ->
        text e = text s /\ text e' = text s)
    /\ (~ blank (text p) -> ~ blank (text s) ->
        strip (text p) <> strip (text s) ->
        text e = text p ++ dash_separator ++ text s
        /\ text e' = text s ++ dash_separator ++ text p)
    /\ (text p = lit "Hallo Welt" -> text s = lit "Hello World" ->
        text e = lit "Hallo Welt" ++ dash_separator ++ lit "Hello World"
        /\ text e' = lit "Hello World" ++ dash_separator ++ lit "Hallo Welt")
    /\ (text p = nur_primaer -> text s = [] ->
        text e = nur_primaer /\ text e' = nur_primaer)
    /\ (text p = lit "Gleicher Text" -> text s = lit "Gleicher Text" ->
        text e = lit "Gleicher Text" /\ text e' = lit "Gleicher Text")
    /\ (text p = [] -> text s = [] ->
        text e = [] /\ Z.testbit (flags e) 0 = false
        /\ text e' = [] /\ Z.testbit (flags e') 0 = false).
Proof.
  intros Hp Hs.
  destruct (merge_tlks_nth P S dash_separator false i p s Hp Hs)
    as (out & merged & Hm & He).
  destruct (merge_tlks_nth P S dash_separator true i p s Hp Hs)
    as (out' & merged' & Hm' & He').
  exists out, out', merged, merged', (merge_entry p s dash_separator false),
    (merge_entry p s dash_separator true).
  repeat (split; [assumption|]).
  unfold merge_entry.
  pose proof (decide_outcome_spec (text p) (text s)) as Dec.
  split; [|split; [|split; [|split]]].
  - intros Bp Bs.
    destruct (decide_outcome (strip (text p)) (strip (text s)));
      cbn [text flags];
      first [tauto | repeat split; try reflexivity; apply testbit0_clear].
  - intros Bp Bs.
    destruct (decide_outcome (strip (text p)) (strip (text s)));
      cbn [text]; tauto.
  - intros Bp Bs.
    destruct (decide_outcome (strip (text p)) (strip (text s)));
      cbn [text]; tauto.
  - intros Bp Bs Hne.
    destruct (decide_outcome (strip (text p)) (strip (text s)));
      cbn [text]; tauto.
  - clear Dec.
    split; [|split; [|split]]; intros Tp Ts; rewrite Tp, Ts;
      repeat split; try reflexivity; simpl; apply testbit0_clear.
Qed.

Lemma merge_scenarios_witness :
  exists out out' merged merged' e e',
    merge_tlks test_primary test_secondary dash_separator false
      = (out, Ok merged)
    /\ merge_tlks test_primary test_secondary dash_separator true
      = (out', Ok merged')
    /\ nth_error (entries merged) 0 = Some e
    /\ nth_error (entries merged') 0 = Some e'
    /\ (blank (lit "Hallo Welt") -> blank (lit "Hello World") ->
        text e = [] /\ Z.testbit (flags e) 0 = false
        /\ text e' = [] /\ Z.testbit (flags e') 0 = false)
    /\ (~ blank (lit "Hallo Welt") ->
        strip (lit "Hallo Welt") = strip (lit "Hello World")
        \/ blank (lit "Hello World") ->
        text e = lit "Hallo Welt" /\ text e' = lit "Hallo Welt")
    /\ (blank (lit "Hallo Welt") -> ~ blank (lit "Hello World") ->
        text e = lit "Hello World" /\ text e' = lit "Hello World")
    /\ (~ blank (lit "Hallo Welt") -> ~ blank (lit "Hello World") ->
        strip (lit "Hallo Welt") <> strip (lit "Hello World") ->
        text e = lit "Hallo Welt" ++ dash_separator ++ lit "Hello World"
        /\ text e' = lit "Hello World" ++ dash_separator ++ lit "Hallo Welt")
    /\ (lit "Hallo Welt" = lit "Hallo Welt" ->
        lit "Hello World" = lit "Hello World" ->
        text e = lit "Hallo Welt" ++ dash_separator ++ lit "Hello World"
        /\ text e' = lit "Hello World" ++ dash_separator ++ lit "Hallo Welt")
    /\ (lit "Hallo Welt" = nur_primaer -> lit "Hello World" = [] ->
        text e = nur_primaer /\ text e' = nur_primaer)
    /\ (lit "Hallo Welt" = lit "Gleicher Text" ->
        lit "Hello World" = lit "Gleicher Text" ->
        text e = lit "Gleicher Text" /\ text e' = lit "Gleicher Text")
    /\ (lit "Hallo Welt" = [] -> lit "Hello World" = [] ->
        text e = [] /\ Z.testbit (flags e) 0 = false
        /\ text e' = [] /\ Z.testbit (flags e') 0 = false).
Proof.
  apply (merge_scenarios test_primary test_secondary 0
           (test_entry (lit "Hallo Welt")) (test_entry (lit "Hello World")));
    reflexivity.
Defined.

(** C8: when the entry counts of the two tables differ, [merge_tlks] does
    not raise; it prints the count-mismatch warning and returns a table
    with as many entries as the shorter input, the entry at each index
    below that count being merged from the two entries at that index. *)
Theorem merge_count_mismatch (P S : TlkFile) (sep : str) (swap : bool) :
  length (entries P) <> length (entries S) ->
  exists out merged,
    merge_tlks P S sep swap = (out, Ok merged)
    /\ In (CountMismatchWarning (len (entries P)) (len (entries S))) out
    /\ len (entries merged) = Z.min (len (entries P)) (len (entries S))
    /\ (forall i p s,
          nth_error (entries P) i = Some p ->
          nth_error (entries S) i = Some s ->
          nth_error (entries merged) i = Some (merge_entry p s sep swap)).
Proof.
  intros Hne.
  destruct (merge_tlks_spec P S sep swap) as (c & k & e & H).
  rewrite H. eexists _, _. split; [reflexivity|]. repeat split.
  - apply in_or_app. left. unfold mismatch_warning.
    destruct (Z.eqb_spec (len (entries P)) (len (entries S))) as [E|E].
    + unfold len in E. lia.
    + simpl. left. reflexivity.
  - simpl. unfold len. rewrite length_map, length_combine. lia.
  - intros i p s Hp Hs. simpl.
    rewrite nth_error_map, nth_error_combine, Hp, Hs. reflexivity.
Qed.

Lemma merge_count_mismatch_witness :
  exists out merged,
    merge_tlks test_primary short_secondary dash_separator false
      = (out, Ok merged)
    /\ In (CountMismatchWarning (len (entries test_primary))
             (len (entries short_secondary))) out
    /\ len (entries merged)
       = Z.min (len (entries test_primary)) (len (entries short_secondary))
    /\ (forall i p s,
          nth_error (entries test_primary) i = Some p ->
          nth_error (entries short_secondary) i = Some s ->
          nth_error (entries merged) i
          = Some (merge_entry p s dash_separator false)).
Proof.
  apply (merge_count_mismatch test_primary short_secondary
           dash_separator false).
  simpl. lia.
Defined.

(** C9: the merge decides on the stripped texts and stores the unstripped
    ones.  A text made of white space only counts as empty, and two texts
    that are equal once stripped count as identical; when the primary is
    kept, or the secondary is kept, the merged entry holds the original
    text of that entry. *)
Theorem merge_strips_to_decide (P S : TlkFile) (sep : str) (swap : bool)
    (i : nat) (p s : TlkEntry) :
  nth_error (entries P) i = Some p ->
  nth_error (entries S) i = Some s ->
  exists out merged e,
    merge_tlks P S sep swap = (out, Ok merged)
    /\ nth_error (entries merged) i = Some e
    /\ (blank (text p) -> blank (text s) -> text e = [])
    /\ (~ blank (text p) ->
        strip (text p) = strip (text s) \/ blank (text s) ->
        text e = text p)
    /\ (blank (text p) -> ~ blank (text s) -> text e = text s).
Proof.
  intros Hp Hs.
  destruct (merge_tlks_nth P S sep swap i p s Hp Hs)
    as (out & merged & Hm & He).
  exists out, merged, (merge_entry p s sep swap).
  repeat (split; [assumption|]).
  unfold merge_entry.
  pose proof (decide_outcome_spec (text p) (text s)) as D.
  destruct (decide_outcome (strip (text p)) (strip (text s)));
    simpl; repeat split; intros; try reflexivity; tauto.
Qed.

Lemma merge_strips_to_decide_witness :
  exists out merged e,
    merge_tlks padded_primary padded_secondary dash_separator false
      = (out, Ok merged)
    /\ nth_error (entries merged) 0 = Some e
    /\ (blank (lit "  Hallo Welt ") -> blank (lit " Hallo Welt") ->
        text e = [])
    /\ (~ blank (lit "  Hallo Welt ") ->
        strip (lit "  Hallo Welt ") = strip (lit " Hallo Welt")
        \/ blank (lit " Hallo Welt") ->
        text e = lit "  Hallo Welt ")
    /\ (blank (lit "  Hallo Welt ") -> ~ blank (lit " Hallo Welt") ->
        text e = lit " Hallo Welt").
Proof.
  apply (merge_strips_to_decide padded_primary padded_secondary
           dash_separator false 0
           (mkTlkEntry (lit "  Hallo Welt ") [x41; x42] 3 5 6)
           (mkTlkEntry (lit " Hallo Welt") [x43] 1 7 8));
    reflexivity.
Defined.

(** C10: the merged table carries the language id of the primary table
    and has as many entries as the shorter of the two tables; at every
    index that both tables have, the merged table has an entry, which
    carries the sound resource name and the two variances of the primary
    entry at that index, whichever text was kept, also when the text kept
    is the secondary's; and the merged table has no other entry. *)
Theorem merge_metadata_from_primary (P S : TlkFile) (sep : str)
    (swap : bool) :
  exists out merged,
    merge_tlks P S sep swap = (out, Ok merged)
    /\ language_id merged = language_id P
    /\ length (entries merged)
       = Nat.min (length (entries P)) (length (entries S))
    /\ (forall i p s,
          nth_error (entries P) i = Some p ->
          nth_error (entries S) i = Some s ->
          exists e,
            nth_error (entries merged) i = Some e
            /\ e = merge_entry p s sep swap
            /\ sound_resref e = sound_resref p
            /\ volume_variance e = volume_variance p
            /\ pitch_variance e = pitch_variance p
            /\ (blank (text p) -> ~ blank (text s) -> text e = text s))
    /\ (forall i e,
          nth_error (entries merged) i = Some e ->
          exists p s,
            nth_error (entries P) i = Some p
            /\ nth_error (entries S) i = Some s
            /\ e = merge_entry p s sep swap
            /\ sound_resref e = sound_resref p
            /\ volume_variance e = volume_variance p
            /\ pitch_variance e = pitch_variance p).
Proof.
  destruct (merge_tlks_spec P S sep swap) as (c & k & e0 & H).
  rewrite H. eexists _, _. split; [reflexivity|]. split; [reflexivity|].
  cbn [entries].
  assert (Hmeta : forall p s,
            sound_resref (merge_entry p s sep swap) = sound_resref p
            /\ volume_variance (merge_entry p s sep swap)
               = volume_variance p
            /\ pitch_variance (merge_entry p s sep swap)
               = pitch_variance p).
  { intros p s. unfold merge_entry.
    destruct (decide_outcome _ _); repeat split; reflexivity. }
  split; [rewrite length_map, length_combine; reflexivity|]. split.
  - intros i p s Hp Hs. exists (merge_entry p s sep swap).
    split.
    { rewrite nth_error_map, nth_error_combine, Hp, Hs. reflexivity. }
    split; [reflexivity|].
    destruct (Hmeta p s) as (H1 & H2 & H3).
    repeat (split; [assumption|]).
    intros Bp Bs. unfold merge_entry.
    pose proof (decide_outcome_spec (text p) (text s)) as D.
    destruct (decide_outcome (strip (text p)) (strip (text s)));
      cbn [text]; tauto.
  - intros i e He.
    rewrite nth_error_map, nth_error_combine in He.
    destruct (nth_error (entries P) i) as [p|]; try discriminate.
    destruct (nth_error (entries S) i) as [s|]; try discriminate.
    simpl in He. inversion He; subst e. exists p, s.
    repeat (split; [reflexivity|]). apply Hmeta.
Qed.

Lemma merge_metadata_from_primary_witness :
  exists out merged,
    merge_tlks silent_primary spoken_secondary dash_separator false
      = (out, Ok merged)
    /\ language_id merged = 9
    /\ length (entries merged) = 1%nat
    /\ nth_error (entries merged) 0
       = Some (mkTlkEntry (lit "Only secondary") [x53; x4e; x44] 2 11 12).
Proof.
  destruct (merge_metadata_from_primary silent_primary spoken_secondary
              dash_separator false)
    as (out & merged & Hm & Hlang & Hlen & Hfwd & _).
  exists out, merged. split; [exact Hm|]. split; [exact Hlang|].
  split; [exact Hlen|].
  destruct (Hfwd 0%nat
              (mkTlkEntry (lit " ") [x53; x4e; x44] 2 11 12)
              (mkTlkEntry (lit "Only secondary") [x58] 1 21 22)
              eq_refl eq_refl)
    as (e & He & -> & _).
  exact He.
Defined.

(** ** Little-endian fields *)

Lemma Z_of_byte_range b : 0 <= Z_of_byte b < 256.
Proof.
  unfold Z_of_byte. pose proof (Byte.to_N_bounded b). lia.
Qed.

Lemma Z_of_byte_of_Z z : Z_of_byte (byte_of_Z z) = z mod 256.
Proof.
  unfold Z_of_byte, byte_of_Z.
  pose proof (Z.mod_pos_bound z 256 ltac:(lia)) as Hm.
  destruct (Byte.of_N (Z.to_N (z mod 256))) as [b|] eqn:E.
  - apply Byte.to_of_N in E. rewrite E. apply Z2N.id. lia.
  - apply Byte.of_N_None_iff in E.
    assert (Z.of_N (Z.to_N (z mod 256)) = z mod 256) by (apply Z2N.id; lia).
    lia.
Qed.

Lemma length_to_le n x : length (to_le n x) = n.
Proof.
  revert x. induction n as [|n IH]; intros x; simpl; [reflexivity|].
  rewrite IH. reflexivity.
Qed.

Lemma from_le_to_le n x :
  0 <= x < 256 ^ Z.of_nat n -> from_le (to_le n x) = x.
Proof.
  revert x. induction n as [|n IH]; intros x Hx.
  - simpl in *. lia.
  - cbn [to_le from_le]. rewrite Z_of_byte_of_Z, IH.
    + pose proof (Z.div_mod x 256 ltac:(lia)). lia.
    + rewrite Nat2Z.inj_succ, Z.pow_succ_r in Hx by lia.
      split; [apply Z.div_pos; lia|].
      apply Z.div_lt_upper_bound; lia.
Qed.

Lemma from_le_nonneg bs : 0 <= from_le bs.
Proof.
  induction bs as [|b bs IH]; cbn [from_le]; [lia|].
  pose proof (Z_of_byte_range b). lia.
Qed.

Lemma pack_H_ok x : 0 <= x <= 65535 -> pack_H x = Ok (to_le 2 x).
Proof.
  intros H. unfold pack_H.
  destruct (Z.leb_spec 0 x); destruct (Z.leb_spec x 65535);
    simpl; try lia; reflexivity.
Qed.

Lemma pack_I_ok x : 0 <= x <= 4294967295 -> pack_I x = Ok (to_le 4 x).
Proof.
  intros H. unfold pack_I.
  destruct (Z.leb_spec 0 x); destruct (Z.leb_spec x 4294967295);
    simpl; try lia; reflexivity.
Qed.

Lemma length_pack_s n b : length (pack_s n b) = n.
Proof.
  unfold pack_s. rewrite length_app, repeat_length, length_firstn. lia.
Qed.

Lemma pack_s_ljust n b : pack_s n (ljust n x00 (firstn n b)) = pack_s n b.
Proof.
  unfold pack_s, ljust.
  assert (Hl : length (firstn n b ++ repeat x00 (n - length (firstn n b)))
               = n).
  { rewrite length_app, repeat_length, length_firstn. lia. }
  rewrite firstn_all2 by lia. rewrite Hl, Nat.sub_diag. simpl.
  apply app_nil_r.
Qed.

(** ** Reading a range of a buffer *)

Lemma field_app (pre x post : bytes) off a b :
  len pre = off + a -> len x = b - a ->
  field (pre ++ x ++ post) off a b = x.
Proof.
  unfold field, len. intros Hp Hx.
  rewrite skipn_app.
  replace (Z.to_nat (off + a)) with (length pre) by lia.
  rewrite skipn_all, Nat.sub_diag. simpl.
  rewrite firstn_app.
  replace (Z.to_nat (b - a)) with (length x) by lia.
  rewrite firstn_all, Nat.sub_diag. simpl. apply app_nil_r.
Qed.

(** On non-negative bounds a slice is the plain clamped range. *)
Lemma getslice_clamped {A} (l : list A) a n :
  0 <= a -> 0 <= n ->
  getslice l a (a + n) = firstn (Z.to_nat n) (skipn (Z.to_nat a) l).
Proof.
  intros Ha Hn. unfold getslice, slice_index, len.
  destruct (Z.ltb_spec a 0); [lia|].
  destruct (Z.ltb_spec (a + n) 0); [lia|].
  destruct (Z_le_gt_dec (Z.of_nat (length l)) a) as [Hge|Hlt].
  - rewrite !skipn_all2 by lia. rewrite !firstn_nil. reflexivity.
  - rewrite (Z.min_l a) by lia.
    destruct (Z_le_gt_dec (a + n) (Z.of_nat (length l))).
    + rewrite Z.min_l by lia. f_equal. lia.
    + rewrite Z.min_r by lia.
      rewrite !firstn_all2; try reflexivity; rewrite length_skipn; lia.
Qed.

Lemma getslice_app {A} (pre x post : list A) a b :
  len pre = a -> len x = b - a ->
  getslice (pre ++ x ++ post) a b = x.
Proof.
  unfold len. intros Hp Hx.
  replace b with (a + (b - a)) by lia.
  rewrite getslice_clamped by lia.
  rewrite skipn_app.
  replace (Z.to_nat a) with (length pre) by lia.
  rewrite skipn_all, Nat.sub_diag. simpl.
  rewrite firstn_app.
  replace (Z.to_nat (b - a)) with (length x) by lia.
  rewrite firstn_all, Nat.sub_diag. simpl. apply app_nil_r.
Qed.

(** ** The writer builds the layout *)

Lemma build_string_block_spec ss : forall offs blk,
  build_string_block ss offs blk =
  (offs ++ offsets_from (len blk) ss, blk ++ concat ss).
Proof.
  induction ss as [|s ss IH]; intros offs blk; simpl.
  - rewrite !app_nil_r. reflexivity.
  - rewrite IH, <- !app_assoc. simpl.
    unfold len. rewrite length_app, Nat2Z.inj_add. reflexivity.
Qed.

Lemma skipn_cons_nth {A} (l : list A) k x r :
  skipn k l = x :: r -> nth_error l k = Some x /\ skipn (S k) l = r.
Proof.
  revert k. induction l as [|a l IH]; intros [|k] H; simpl in *;
    try discriminate.
  - inversion H. split; reflexivity.
  - apply IH. exact H.
Qed.

Lemma lor_FLAG_TEXT f : Z.lor f FLAG_TEXT = 2 * (f / 2) + 1.
Proof.
  apply Z.bits_inj'. intros n Hn. rewrite Z.lor_spec.
  destruct (Z.eq_dec n 0) as [->|Hz].
  - rewrite Z.testbit_odd_0. apply orb_true_r.
  - replace n with (Z.succ (n - 1)) by lia.
    rewrite Z.testbit_odd_succ, Z.div2_bits by lia.
    replace (Z.testbit FLAG_TEXT (Z.succ (n - 1))) with false.
    + apply orb_false_r.
    + unfold FLAG_TEXT. destruct (Z.succ (n - 1)) eqn:E; try reflexivity.
      lia.
Qed.

Lemma land_not_FLAG_TEXT f : Z.land f (Z.lnot FLAG_TEXT) = 2 * (f / 2).
Proof.
  apply Z.bits_inj'. intros n Hn. rewrite Z.land_spec, Z.lnot_spec by lia.
  destruct (Z.eq_dec n 0) as [->|Hz].
  - rewrite Z.testbit_even_0. apply andb_false_r.
  - replace n with (Z.succ (n - 1)) by lia.
    rewrite Z.testbit_even_succ, Z.div2_bits by lia.
    replace (Z.testbit FLAG_TEXT (Z.succ (n - 1))) with false.
    + apply andb_true_r.
    + unfold FLAG_TEXT. destruct (Z.succ (n - 1)) eqn:E; try reflexivity.
      lia.
Qed.

Lemma recalc_flags_u16 e : u16 (flags e) -> u16 (recalc_flags e).
Proof.
  unfold u16, recalc_flags. intros H.
  pose proof (Z.div_mod (flags e) 2 ltac:(lia)) as Hd.
  pose proof (Z.mod_pos_bound (flags e) 2 ltac:(lia)) as Hm.
  destruct (truthy (text e)).
  - rewrite lor_FLAG_TEXT. lia.
  - rewrite land_not_FLAG_TEXT. lia.
Qed.

Lemma build_entry_table_spec encoding offs encs rest : forall k o acc,
  skipn k offs = offsets_from o (encoded encoding rest) ->
  skipn k encs = encoded encoding rest ->
  Forall packable_entry rest ->
  Forall u32 (offsets_from o (encoded encoding rest)) ->
  Forall (fun s => u32 (len s)) (encoded encoding rest) ->
  build_entry_table offs encs (combine (seq k (length rest)) rest) acc =
  Ok (acc ++ entry_records encoding rest o).
Proof.
  induction rest as [|e rest IH]; intros k o acc Ho He Hp Hoff Hlen.
  - simpl. rewrite app_nil_r. reflexivity.
  - cbn [length seq combine build_entry_table].
    cbn [encoded map offsets_from] in Ho, He, Hoff, Hlen.
    apply skipn_cons_nth in Ho. destruct Ho as [Ho1 Ho2].
    apply skipn_cons_nth in He. destruct He as [He1 He2].
    inversion Hp as [|? ? [Hfl [Hv Hpi]] Hp']; subst.
    inversion Hoff as [|? ? Ho32 Hoff']; subst.
    inversion Hlen as [|? ? Hl32 Hlen']; subst.
    rewrite (getitem_Some _ _ _ Ho1), (getitem_Some _ _ _ He1).
    cbn [bind Ok]. unfold pack_entry.
    rewrite (pack_H_ok _ (recalc_flags_u16 _ Hfl)).
    rewrite (pack_I_ok _ Hv), (pack_I_ok _ Hpi), (pack_I_ok _ Ho32),
      (pack_I_ok _ Hl32).
    cbn [bind Ok]. rewrite pack_s_ljust.
    rewrite (IH (S k) (o + len (str_encode encoding (text e))));
      try assumption.
    cbn [entry_records]. unfold entry_record.
    rewrite <- !app_assoc. reflexivity.
Qed.

Lemma to_bytes_layout self encoding :
  packable self encoding ->
  to_bytes self encoding = Ok (layout self encoding).
Proof.
  intros (Hlang & Hso & Hes & Hoffs & Hlens).
  unfold to_bytes. rewrite build_string_block_spec. cbn [app].
  unfold pack_hdr. rewrite (pack_H_ok _ Hlang).
  assert (Hn : u32 (len (entries self))).
  { unfold u32, _HDR_SIZE, _ENTRY_SIZE, len in *. lia. }
  rewrite (pack_I_ok _ Hn), (pack_I_ok _ Hso). cbn [bind Ok].
  unfold enumerate.
  rewrite (build_entry_table_spec encoding _ _ (entries self) 0 0 [])
    by (assumption || reflexivity).
  cbn [bind Ok]. unfold layout, header_bytes.
  rewrite <- !app_assoc. reflexivity.
Qed.

(** ** What the writer needs to succeed *)

Lemma pack_H_inv x b : pack_H x = Ok b -> u16 x.
Proof.
  unfold pack_H, u16.
  destruct (Z.leb_spec 0 x); destruct (Z.leb_spec x 65535); simpl;
    intros Hb; try discriminate. lia.
Qed.

Lemma pack_I_inv x b : pack_I x = Ok b -> u32 x.
Proof.
  unfold pack_I, u32.
  destruct (Z.leb_spec 0 x); destruct (Z.leb_spec x 4294967295); simpl;
    intros Hb; try discriminate. lia.
Qed.

Lemma bind_Ok_inv {A B} (m : result A) (k : A -> result B) b :
  bind m k = Ok b -> exists a, m = Ok a /\ k a = Ok b.
Proof.
  destruct m as [e|a]; simpl; intros H; [discriminate|].
  exists a. split; [reflexivity|exact H].
Qed.

Lemma recalc_flags_u16_inv e : u16 (recalc_flags e) -> u16 (flags e).
Proof.
  unfold u16, recalc_flags.
  pose proof (Z.div_mod (flags e) 2 ltac:(lia)) as Hd.
  pose proof (Z.mod_pos_bound (flags e) 2 ltac:(lia)) as Hm.
  destruct (truthy (text e)).
  - rewrite lor_FLAG_TEXT. lia.
  - rewrite land_not_FLAG_TEXT. lia.
Qed.

Lemma build_entry_table_inv encoding offs encs rest : forall k o acc buf,
  skipn k offs = offsets_from o (encoded encoding rest) ->
  skipn k encs = encoded encoding rest ->
  build_entry_table offs encs (combine (seq k (length rest)) rest) acc
    = Ok buf ->
  Forall packable_entry rest
  /\ Forall u32 (offsets_from o (encoded encoding rest))
  /\ Forall (fun s => u32 (len s)) (encoded encoding rest).
Proof.
  induction rest as [|e rest IH]; intros k o acc buf Ho He Hb.
  - repeat split; constructor.
  - cbn [length seq combine build_entry_table] in Hb.
    cbn [encoded map offsets_from] in Ho, He |- *.
    apply skipn_cons_nth in Ho. destruct Ho as [Ho1 Ho2].
    apply skipn_cons_nth in He. destruct He as [He1 He2].
    rewrite (getitem_Some _ _ _ Ho1), (getitem_Some _ _ _ He1) in Hb.
    cbn [bind Ok] in Hb.
    apply bind_Ok_inv in Hb. destruct Hb as (packed & Hpack & Hb).
    unfold pack_entry in Hpack.
    apply bind_Ok_inv in Hpack. destruct Hpack as (b1 & H1 & Hpack).
    apply bind_Ok_inv in Hpack. destruct Hpack as (b2 & H2 & Hpack).
    apply bind_Ok_inv in Hpack. destruct Hpack as (b3 & H3 & Hpack).
    apply bind_Ok_inv in Hpack. destruct Hpack as (b4 & H4 & Hpack).
    apply bind_Ok_inv in Hpack. destruct Hpack as (b5 & H5 & _).
    apply pack_H_inv, recalc_flags_u16_inv in H1.
    apply pack_I_inv in H2, H3, H4, H5.
    destruct (IH _ _ _ _ Ho2 He2 Hb) as (Hp & Hoffs & Hlens).
    split; [|split].
    + constructor; [|assumption]. split; [|split]; assumption.
    + constructor; assumption.
    + constructor; assumption.
Qed.

(** [to_bytes] returns a buffer exactly for the packable tables; for any
    other table one of its [struct.pack] calls raises. *)
Lemma to_bytes_Ok_iff self encoding :
  (exists buf, to_bytes self encoding = Ok buf) <-> packable self encoding.
Proof.
  split.
  - intros [buf H]. unfold to_bytes in H.
    rewrite build_string_block_spec in H. cbn [app] in H.
    apply bind_Ok_inv in H. destruct H as (header & Hh & H).
    apply bind_Ok_inv in H. destruct H as (table & Ht & _).
    unfold pack_hdr in Hh.
    apply bind_Ok_inv in Hh. destruct Hh as (b1 & H1 & Hh).
    apply bind_Ok_inv in Hh. destruct Hh as (b2 & H2 & Hh).
    apply bind_Ok_inv in Hh. destruct Hh as (b3 & H3 & _).
    apply pack_H_inv in H1. apply pack_I_inv in H3.
    unfold enumerate in Ht.
    apply (build_entry_table_inv encoding) with (o := 0) in Ht;
      try reflexivity.
    destruct Ht as (Hp & Hoffs & Hlens).
    split; [exact H1|]. split; [exact H3|]. split; [exact Hp|].
    split; assumption.
  - intros H. exists (layout self encoding). apply to_bytes_layout, H.
Qed.

(** ** Reading the layout back *)

Lemma len_app {A} (a b : list A) : len (a ++ b) = len a + len b.
Proof. unfold len. rewrite length_app. lia. Qed.

Lemma len_to_le n x : len (to_le n x) = Z.of_nat n.
Proof. unfold len. rewrite length_to_le. reflexivity. Qed.

Lemma len_pack_s n b : len (pack_s n b) = Z.of_nat n.
Proof. unfold len. rewrite length_pack_s. reflexivity. Qed.

Lemma len_nonneg {A} (l : list A) : 0 <= len l.
Proof. unfold len. lia. Qed.

Lemma len_entry_record e off ln : len (entry_record e off ln) = 26.
Proof.
  unfold entry_record. rewrite !len_app, !len_to_le, len_pack_s. lia.
Qed.

Lemma len_entry_records encoding es : forall o,
  len (entry_records encoding es o) = 26 * len es.
Proof.
  induction es as [|e es IH]; intros o; cbn [entry_records].
  - reflexivity.
  - rewrite len_app, len_entry_record, IH. unfold len. simpl length. lia.
Qed.

Lemma len_header_bytes self : len (header_bytes self) = 18.
Proof.
  unfold header_bytes. rewrite !len_app, !len_to_le. reflexivity.
Qed.

Lemma encoded_app encoding l1 l2 :
  encoded encoding (l1 ++ l2) = encoded encoding l1 ++ encoded encoding l2.
Proof. apply map_app. Qed.

Lemma offsets_from_app ss1 ss2 : forall o,
  offsets_from o (ss1 ++ ss2) =
  offsets_from o ss1 ++ offsets_from (o + len (concat ss1)) ss2.
Proof.
  induction ss1 as [|s ss1 IH]; intros o; simpl.
  - f_equal. unfold len. simpl. lia.
  - rewrite IH. do 3 f_equal. rewrite len_app. lia.
Qed.

Lemma entry_records_app encoding l1 l2 : forall o,
  entry_records encoding (l1 ++ l2) o =
  entry_records encoding l1 o
  ++ entry_records encoding l2 (o + len (concat (encoded encoding l1))).
Proof.
  induction l1 as [|e l1 IH]; intros o; cbn [entry_records app].
  - f_equal. unfold len. simpl. lia.
  - rewrite IH, <- app_assoc. do 3 f_equal.
    cbn [encoded map concat]. rewrite len_app. unfold encoded. lia.
Qed.

Lemma unpack_entry_fields (pre f1 f2 f3 f4 f5 f6 post : bytes) off :
  len pre = off ->
  len f1 = 2 -> len f2 = 8 -> len f3 = 4 -> len f4 = 4 -> len f5 = 4 ->
  len f6 = 4 ->
  unpack_entry (pre ++ (f1 ++ f2 ++ f3 ++ f4 ++ f5 ++ f6) ++ post) off =
  Ok (from_le f1, f2, from_le f3, from_le f4, from_le f5, from_le f6).
Proof.
  intros Hpre H1 H2 H3 H4 H5 H6. unfold unpack_entry, _ENTRY_SIZE.
  pose proof (len_nonneg post).
  rewrite !len_app.
  destruct (Z.ltb_spec
              (len pre + (len f1 + (len f2 + (len f3 + (len f4
                 + (len f5 + len f6)))) + len post) - off) 26); [lia|].
  rewrite <- !app_assoc.
  rewrite (field_app pre f1) by lia.
  rewrite (app_assoc pre f1).
  rewrite (field_app (pre ++ f1) f2) by (rewrite ?len_app; lia).
  rewrite (app_assoc (pre ++ f1) f2).
  rewrite (field_app ((pre ++ f1) ++ f2) f3) by (rewrite ?len_app; lia).
  rewrite (app_assoc ((pre ++ f1) ++ f2) f3).
  rewrite (field_app (((pre ++ f1) ++ f2) ++ f3) f4)
    by (rewrite ?len_app; lia).
  rewrite (app_assoc (((pre ++ f1) ++ f2) ++ f3) f4).
  rewrite (field_app ((((pre ++ f1) ++ f2) ++ f3) ++ f4) f5)
    by (rewrite ?len_app; lia).
  rewrite (app_assoc ((((pre ++ f1) ++ f2) ++ f3) ++ f4) f5).
  rewrite (field_app (((((pre ++ f1) ++ f2) ++ f3) ++ f4) ++ f5) f6)
    by (rewrite ?len_app; lia).
  reflexivity.
Qed.

Lemma unpack_hdr_fields (f1 f2 f3 f4 f5 post : bytes) :
  len f1 = 4 -> len f2 = 4 -> len f3 = 2 -> len f4 = 4 -> len f5 = 4 ->
  unpack_hdr ((f1 ++ f2 ++ f3 ++ f4 ++ f5) ++ post) 0 =
  Ok (f1, f2, from_le f3, from_le f4, from_le f5).
Proof.
  intros H1 H2 H3 H4 H5. unfold unpack_hdr, _HDR_SIZE.
  pose proof (len_nonneg post).
  rewrite !len_app.
  destruct (Z.ltb_spec
              (len f1 + (len f2 + (len f3 + (len f4 + len f5)))
               + len post - 0) 18); [lia|].
  rewrite <- !app_assoc.
  pose proof (field_app [] f1 (f2 ++ f3 ++ f4 ++ f5 ++ post) 0 0 4) as F1.
  cbn [app] in F1. rewrite F1 by (cbn; lia).
  rewrite (field_app f1 f2) by lia.
  rewrite (app_assoc f1 f2).
  rewrite (field_app (f1 ++ f2) f3) by (rewrite ?len_app; lia).
  rewrite (app_assoc (f1 ++ f2) f3).
  rewrite (field_app ((f1 ++ f2) ++ f3) f4) by (rewrite ?len_app; lia).
  rewrite (app_assoc ((f1 ++ f2) ++ f3) f4).
  rewrite (field_app (((f1 ++ f2) ++ f3) ++ f4) f5)
    by (rewrite ?len_app; lia).
  reflexivity.
Qed.

Lemma from_le_u16 x : u16 x -> from_le (to_le 2 x) = x.
Proof. unfold u16. intros H. apply from_le_to_le. simpl. lia. Qed.

Lemma from_le_u32 x : u32 x -> from_le (to_le 4 x) = x.
Proof. unfold u32. intros H. apply from_le_to_le. simpl. lia. Qed.

Lemma packable_entries_u32 self encoding :
  packable self encoding -> u32 (len (entries self)).
Proof.
  intros (_ & H & _). unfold u32, _HDR_SIZE, _ENTRY_SIZE in *.
  pose proof (len_nonneg (entries self)). lia.
Qed.

(** The header of the layout, as [unpack_from] reads it. *)
Lemma wire_header self encoding :
  packable self encoding ->
  unpack_hdr (layout self encoding) 0 =
  Ok (TLK_SIGNATURE, TLK_VERSION, language_id self, len (entries self),
      _HDR_SIZE + len (entries self) * _ENTRY_SIZE).
Proof.
  intros Hp. pose proof (packable_entries_u32 _ _ Hp) as Hn.
  destruct Hp as (Hlang & Hso & _).
  unfold layout, header_bytes.
  rewrite unpack_hdr_fields by (rewrite ?len_to_le; reflexivity).
  rewrite (from_le_u16 _ Hlang), (from_le_u32 _ Hn), (from_le_u32 _ Hso).
  reflexivity.
Qed.

(** The record of the entry that follows [l1], as [unpack_from] reads
    it. *)
Lemma wire_entry self encoding l1 e l2 :
  packable self encoding ->
  entries self = l1 ++ e :: l2 ->
  unpack_entry (layout self encoding) (_HDR_SIZE + len l1 * _ENTRY_SIZE) =
  Ok (recalc_flags e, pack_s 8 (sound_resref e), volume_variance e,
      pitch_variance e, len (concat (encoded encoding l1)),
      len (str_encode encoding (text e))).
Proof.
  intros (Hlang & Hso & Hes & Hoffs & Hlens) Hsplit.
  unfold layout. rewrite Hsplit in *.
  rewrite entry_records_app. cbn [entry_records].
  apply Forall_app in Hes. destruct Hes as [_ Hes].
  inversion Hes as [|? ? [Hfl [Hv Hpi]] _]; subst.
  rewrite encoded_app, offsets_from_app in Hoffs.
  apply Forall_app in Hoffs. destruct Hoffs as [_ Hoffs].
  cbn [encoded map offsets_from] in Hoffs.
  inversion Hoffs as [|? ? Ho32 _]; subst.
  rewrite encoded_app in Hlens.
  apply Forall_app in Hlens. destruct Hlens as [_ Hlens].
  cbn [encoded map] in Hlens.
  inversion Hlens as [|? ? Hl32 _]; subst.
  rewrite Z.add_0_l in *.
  rewrite <- app_assoc, app_assoc.
  rewrite <- (app_assoc (entry_record _ _ _)).
  unfold entry_record at 1.
  rewrite unpack_entry_fields.
  - rewrite (from_le_u16 _ (recalc_flags_u16 _ Hfl)).
    rewrite (from_le_u32 _ Hv), (from_le_u32 _ Hpi), (from_le_u32 _ Ho32),
      (from_le_u32 _ Hl32).
    reflexivity.
  - rewrite len_app, len_header_bytes, len_entry_records.
    unfold _HDR_SIZE, _ENTRY_SIZE. lia.
  - apply len_to_le.
  - apply len_pack_s.
  - apply len_to_le.
  - apply len_to_le.
  - apply len_to_le.
  - apply len_to_le.
Qed.

(** The bytes of the string of the entry that follows [l1]. *)
Lemma wire_string self encoding l1 e l2 :
  entries self = l1 ++ e :: l2 ->
  let base := _HDR_SIZE + len (entries self) * _ENTRY_SIZE in
  let off := len (concat (encoded encoding l1)) in
  getslice (layout self encoding) (base + off)
    (base + off + len (str_encode encoding (text e)))
  = str_encode encoding (text e).
Proof.
  intros Hsplit base off. unfold layout.
  replace (concat (encoded encoding (entries self)))
    with (concat (encoded encoding l1)
          ++ str_encode encoding (text e)
          ++ concat (encoded encoding l2)).
  2:{ rewrite Hsplit, encoded_app, concat_app. reflexivity. }
  rewrite !app_assoc. rewrite <- (app_assoc _ (str_encode _ _)).
  apply getslice_app.
  - rewrite !len_app, len_header_bytes, len_entry_records.
    unfold base, off, _HDR_SIZE, _ENTRY_SIZE. lia.
  - lia.
Qed.

Lemma parse_entries_layout self encoding :
  packable self encoding ->
  forall l2 l1 acc,
    entries self = l1 ++ l2 ->
    parse_entries encoding (layout self encoding)
      (_HDR_SIZE + len (entries self) * _ENTRY_SIZE)
      (length l2) (len l1) acc
    = Ok (acc ++ map (reread encoding) l2).
Proof.
  intros Hp. induction l2 as [|e l2 IH]; intros l1 acc Hsplit.
  - simpl. rewrite app_nil_r. reflexivity.
  - cbn [length parse_entries].
    rewrite (wire_entry self encoding l1 e l2 Hp Hsplit). cbn [bind Ok].
    rewrite (wire_string self encoding l1 e l2 Hsplit).
    replace (len l1 + 1) with (len (l1 ++ [e]))
      by (rewrite len_app; reflexivity).
    rewrite IH by (rewrite <- app_assoc; exact Hsplit).
    rewrite <- app_assoc. reflexivity.
Qed.

(** Decoding the layout gives back the table, entry by entry. *)
Lemma parse_layout self encoding :
  packable self encoding ->
  _parse (layout self encoding) encoding =
  Ok (mkTlkFile (language_id self)
        (map (reread encoding) (entries self))).
Proof.
  intros Hp. unfold _parse. rewrite (wire_header _ _ Hp). cbn [bind Ok].
  replace (bytes_eqb TLK_SIGNATURE TLK_SIGNATURE) with true by reflexivity.
  replace (bytes_eqb TLK_VERSION TLK_VERSION) with true by reflexivity.
  cbn [negb].
  pose proof (parse_entries_layout self encoding Hp (entries self) [] [])
    as H.
  unfold len in *. rewrite Nat2Z.id. cbn [length Z.of_nat app] in H.
  rewrite H by reflexivity. reflexivity.
Qed.

(** ** The encoded buffer *)

Lemma nth_error_firstn_split {A} (l : list A) i x :
  nth_error l i = Some x -> exists l2, l = firstn i l ++ x :: l2.
Proof.
  intros H. destruct (nth_error_split _ _ H) as (l1 & l2 & Hl & Hlen).
  exists l2. subst l i.
  rewrite firstn_app, Nat.sub_diag, firstn_all. simpl.
  rewrite app_nil_r. reflexivity.
Qed.

Lemma wire_entry_nth self encoding i e :
  packable self encoding ->
  nth_error (entries self) i = Some e ->
  unpack_entry (layout self encoding) (entry_offset i) =
  Ok (recalc_flags e, pack_s 8 (sound_resref e), volume_variance e,
      pitch_variance e,
      len (concat (encoded encoding (firstn i (entries self)))),
      len (str_encode encoding (text e))).
Proof.
  intros Hp Hn. destruct (nth_error_firstn_split _ _ _ Hn) as [l2 Hl].
  rewrite <- (wire_entry self encoding _ e l2 Hp Hl).
  unfold entry_offset, len. rewrite length_firstn.
  assert (i < length (entries self))%nat
    by (apply nth_error_Some; congruence).
  rewrite Nat.min_l by lia. reflexivity.
Qed.

Lemma recalc_flags_bit0 e : Z.testbit (recalc_flags e) 0 = truthy (text e).
Proof.
  unfold recalc_flags. destruct (truthy (text e)).
  - rewrite Z.lor_spec. apply orb_true_r.
  - apply testbit0_clear.
Qed.

Lemma recalc_flags_high e k :
  1 <= k -> Z.testbit (recalc_flags e) k = Z.testbit (flags e) k.
Proof.
  intros Hk. unfold recalc_flags.
  assert (H1 : Z.testbit FLAG_TEXT k = false).
  { unfold FLAG_TEXT. destruct k; try reflexivity. lia. }
  destruct (truthy (text e)).
  - rewrite Z.lor_spec, H1. apply orb_false_r.
  - rewrite Z.land_spec, Z.lnot_spec, H1 by lia. apply andb_true_r.
Qed.

(** Closed instances of [packable] are settled by evaluation. *)
Ltac packable_by_evaluation :=
  unfold packable, packable_entry, u16, u32;
  repeat match goal with
         | |- _ /\ _ => split
         | |- Forall _ _ => cbn; repeat constructor
         | |- _ <= _ => cbn; lia
         end.

Lemma sample_table_packable : packable sample_table cp1252.
Proof. packable_by_evaluation. Qed.

Lemma sample_table_representable :
  Forall (fun e => representable cp1252 (text e)) (entries sample_table).
Proof. repeat constructor. Qed.

(** C3: in the buffer that [to_bytes] builds, bit 0 of the flags of every
    entry tells whether the text of the entry is non-empty, whatever the
    bit was in memory, and every higher bit (bits 1 and 2 among them) is
    the bit of the entry. *)
Theorem encode_recomputes_text_flag (self : TlkFile) (encoding : codec)
    (i : nat) (e : TlkEntry) :
  packable self encoding ->
  nth_error (entries self) i = Some e ->
  exists buf fl,
    to_bytes self encoding = Ok buf
    /\ wire_flags buf i = Ok fl
    /\ Z.testbit fl 0 = truthy (text e)
    /\ forall k, 1 <= k -> Z.testbit fl k = Z.testbit (flags e) k.
Proof.
  intros Hp Hn. exists (layout self encoding), (recalc_flags e).
  split; [apply to_bytes_layout, Hp|]. split.
  - unfold wire_flags. rewrite (wire_entry_nth _ _ _ _ Hp Hn). reflexivity.
  - split; [apply recalc_flags_bit0|]. intros k Hk.
    apply recalc_flags_high, Hk.
Qed.

Lemma encode_recomputes_text_flag_witness :
  exists buf fl,
    to_bytes sample_table cp1252 = Ok buf
    /\ wire_flags buf 1 = Ok fl
    /\ Z.testbit fl 0 = false
    /\ forall k, 1 <= k -> Z.testbit fl k = Z.testbit 5 k.
Proof.
  apply (encode_recomputes_text_flag sample_table cp1252 1
           (mkTlkEntry []
              [x30; x31; x32; x33; x34; x35; x36; x37; x38; x39] 5 0 0)).
  - packable_by_evaluation.
  - reflexivity.
Defined.

(** C4: in the buffer that [to_bytes] builds, the sound resource name of
    every entry takes exactly 8 bytes: a shorter name is followed by NUL
    bytes up to 8, a longer name is cut after its first 8 bytes. *)
Theorem encode_sound_resref_fixed_width (self : TlkFile) (encoding : codec)
    (i : nat) (e : TlkEntry) :
  packable self encoding ->
  nth_error (entries self) i = Some e ->
  exists buf sound,
    to_bytes self encoding = Ok buf
    /\ wire_sound_resref buf i = Ok sound
    /\ length sound = 8%nat
    /\ (length (sound_resref e) <= 8 ->
        sound = sound_resref e
                ++ repeat x00 (8 - length (sound_resref e)))%nat
    /\ (8 <= length (sound_resref e) ->
        sound = firstn 8 (sound_resref e))%nat.
Proof.
  intros Hp Hn. exists (layout self encoding), (pack_s 8 (sound_resref e)).
  split; [apply to_bytes_layout, Hp|]. split.
  - unfold wire_sound_resref. rewrite (wire_entry_nth _ _ _ _ Hp Hn).
    reflexivity.
  - split; [apply length_pack_s|]. unfold pack_s. split; intros Hl.
    + rewrite firstn_all2 by lia. reflexivity.
    + rewrite length_firstn, Nat.min_l by lia. simpl. apply app_nil_r.
Qed.

Lemma encode_sound_resref_fixed_width_witness :
  exists buf sound,
    to_bytes sample_table cp1252 = Ok buf
    /\ wire_sound_resref buf 0 = Ok sound
    /\ length sound = 8%nat
    /\ (length [x41; x42] <= 8 ->
        sound = [x41; x42] ++ repeat x00 (8 - length [x41; x42]))%nat
    /\ (8 <= length [x41; x42] -> sound = firstn 8 [x41; x42])%nat.
Proof.
  apply (encode_sound_resref_fixed_width sample_table cp1252 0
           (mkTlkEntry
              (lit "Hallo Welt" ++ dash_separator ++ lit "Hello World")
              [x41; x42] 2 7 9)).
  - packable_by_evaluation.
  - reflexivity.
Defined.

Lemma concat_encoded_snoc encoding (l : list TlkEntry) i e :
  nth_error l i = Some e ->
  len (concat (encoded encoding (firstn (S i) l))) =
  len (concat (encoded encoding (firstn i l)))
  + len (str_encode encoding (text e)).
Proof.
  intros H. destruct (nth_error_firstn_split _ _ _ H) as [l2 Hl].
  assert (Hi : length (firstn i l) = i).
  { rewrite length_firstn. apply Nat.min_l.
    assert (i < length l)%nat by (apply nth_error_Some; congruence). lia. }
  rewrite Hl at 1.
  replace (S i) with (length (firstn i l) + 1)%nat by lia.
  rewrite firstn_app_2. cbn [firstn].
  rewrite encoded_app, concat_app, len_app. cbn [encoded map concat].
  rewrite app_nil_r. reflexivity.
Qed.

Lemma skipn_layout self encoding :
  skipn (Z.to_nat (_HDR_SIZE + len (entries self) * _ENTRY_SIZE))
    (layout self encoding)
  = concat (encoded encoding (entries self)).
Proof.
  unfold layout. rewrite app_assoc.
  rewrite skipn_app.
  assert (Hl : length (header_bytes self
                        ++ entry_records encoding (entries self) 0)
               = Z.to_nat (_HDR_SIZE + len (entries self) * _ENTRY_SIZE)).
  { pose proof (len_app (header_bytes self)
                  (entry_records encoding (entries self) 0)) as H.
    rewrite len_header_bytes, len_entry_records in H.
    unfold len, _HDR_SIZE, _ENTRY_SIZE in *. lia. }
  rewrite <- Hl, skipn_all, Nat.sub_diag. reflexivity.
Qed.

(** C5: in the buffer that [to_bytes] builds for a table of N entries, the
    header gives 18 + N * 26 as the offset of the string block; the string
    offset of the first entry is 0, and the string offset of every next
    entry is the string offset of the entry before it plus the byte length
    of that entry's encoded text, which is the string length written for
    it; the block after the entry table is the encoded texts one after the
    other, with nothing between them. *)
Theorem encode_offsets_dense (self : TlkFile) (encoding : codec) :
  packable self encoding ->
  exists buf,
    to_bytes self encoding = Ok buf
    /\ wire_string_block_offset buf
       = Ok (18 + len (entries self) * 26)
    /\ (entries self <> [] -> wire_string_offset buf 0 = Ok 0)
    /\ (forall i e,
          nth_error (entries self) i = Some e ->
          (S i < length (entries self))%nat ->
          exists off,
            wire_string_offset buf i = Ok off
            /\ wire_string_length buf i
               = Ok (len (str_encode encoding (text e)))
            /\ wire_string_offset buf (S i)
               = Ok (off + len (str_encode encoding (text e))))
    /\ skipn (Z.to_nat (18 + len (entries self) * 26)) buf
       = concat (encoded encoding (entries self)).
Proof.
  intros Hp. exists (layout self encoding).
  split; [apply to_bytes_layout, Hp|]. split; [|split; [|split]].
  - unfold wire_string_block_offset. rewrite (wire_header _ _ Hp).
    reflexivity.
  - intros Hne. destruct (entries self) as [|e es] eqn:E; [congruence|].
    unfold wire_string_offset.
    rewrite (wire_entry_nth self encoding 0 e Hp) by (rewrite E; reflexivity).
    reflexivity.
  - intros i e Hn Hi.
    destruct (nth_error (entries self) (S i)) as [e'|] eqn:Hn'.
    2:{ apply nth_error_None in Hn'. lia. }
    exists (len (concat (encoded encoding (firstn i (entries self))))).
    unfold wire_string_offset, wire_string_length.
    rewrite (wire_entry_nth _ _ _ _ Hp Hn), (wire_entry_nth _ _ _ _ Hp Hn').
    cbn [bind Ok]. rewrite (concat_encoded_snoc _ _ _ _ Hn).
    repeat split; reflexivity.
  - apply skipn_layout.
Qed.

Lemma encode_offsets_dense_witness :
  exists buf,
    to_bytes sample_table cp1252 = Ok buf
    /\ wire_string_block_offset buf
       = Ok (18 + len (entries sample_table) * 26)
    /\ (entries sample_table <> [] -> wire_string_offset buf 0 = Ok 0)
    /\ (forall i e,
          nth_error (entries sample_table) i = Some e ->
          (S i < length (entries sample_table))%nat ->
          exists off,
            wire_string_offset buf i = Ok off
            /\ wire_string_length buf i
               = Ok (len (str_encode cp1252 (text e)))
            /\ wire_string_offset buf (S i)
               = Ok (off + len (str_encode cp1252 (text e))))
    /\ skipn (Z.to_nat (18 + len (entries sample_table) * 26)) buf
       = concat (encoded cp1252 (entries sample_table)).
Proof.
  apply (encode_offsets_dense sample_table cp1252).
  packable_by_evaluation.
Defined.

(** A charmap codec gives back every text whose characters are all in its
    table. *)
Lemma charmap_representable table s :
  Forall (fun c => charmap_encode_char table c <> None) s ->
  charmap_decode table (charmap_encode table s) = s.
Proof.
  unfold charmap_decode, charmap_encode.
  induction 1 as [|c s Hc _ IH]; cbn [map]; [reflexivity|].
  rewrite IH. f_equal.
  destruct (charmap_encode_char table c) as [b|] eqn:E; [|congruence].
  unfold charmap_encode_char in E. apply find_some in E.
  destruct E as [_ E]. destruct (table b) as [c'|]; [|discriminate].
  apply N.eqb_eq, E.
Qed.

Lemma cp1252_representable s :
  Forall (fun c => charmap_encode_char cp1252_table c <> None) s ->
  representable cp1252 s.
Proof. apply charmap_representable. Qed.

Lemma roundtrip_entry_reread encoding e :
  representable encoding (text e) -> roundtrip_entry e (reread encoding e).
Proof.
  intros Hr. unfold roundtrip_entry, reread. cbn [text sound_resref flags
    volume_variance pitch_variance].
  repeat split.
  - exact Hr.
  - apply recalc_flags_high.
  - apply recalc_flags_bit0.
Qed.

(** C1: a table all of whose fields fit the format, with texts that the
    chosen codec represents (empty ones, ones that contain the separator
    and ones outside ASCII included), is encoded, and decoding the buffer
    with the same codec gives a table with the same language id and the
    same entries in the same order: same text, same variances, the sound
    resource name padded or cut to 8 bytes, the same flags from bit 1 up,
    and bit 0 of the flags telling whether the text is non-empty, whatever
    it was before. *)
Theorem decode_encode_roundtrip (self : TlkFile) (encoding : codec) :
  packable self encoding ->
  Forall (fun e => representable encoding (text e)) (entries self) ->
  exists buf decoded,
    to_bytes self encoding = Ok buf
    /\ _parse buf encoding = Ok decoded
    /\ language_id decoded = language_id self
    /\ Forall2 roundtrip_entry (entries self) (entries decoded).
Proof.
  intros Hp Hr.
  exists (layout self encoding),
    (mkTlkFile (language_id self) (map (reread encoding) (entries self))).
  split; [apply to_bytes_layout, Hp|].
  split; [apply parse_layout, Hp|].
  split; [reflexivity|]. cbn [entries].
  induction Hr as [|e es He _ IH]; simpl; constructor.
  - apply roundtrip_entry_reread, He.
  - exact IH.
Qed.

Lemma decode_encode_roundtrip_witness :
  exists buf decoded,
    to_bytes sample_table cp1252 = Ok buf
    /\ _parse buf cp1252 = Ok decoded
    /\ language_id decoded = language_id sample_table
    /\ Forall2 roundtrip_entry (entries sample_table) (entries decoded).
Proof.
  apply (decode_encode_roundtrip sample_table cp1252).
  - packable_by_evaluation.
  - repeat constructor.
Defined.

(** ** The decoder on arbitrary buffers *)

Lemma unpack_hdr_short data :
  len data < 18 -> unpack_hdr data 0 = raise StructError.
Proof.
  intros H. unfold unpack_hdr, _HDR_SIZE.
  destruct (Z.ltb_spec (len data - 0) 18); [reflexivity|lia].
Qed.

Lemma unpack_hdr_long data :
  18 <= len data ->
  unpack_hdr data 0 =
  Ok (firstn 4 data, firstn 4 (skipn 4 data),
      from_le (field data 0 8 10), from_le (field data 0 10 14),
      from_le (field data 0 14 18)).
Proof.
  intros H. unfold unpack_hdr, _HDR_SIZE.
  destruct (Z.ltb_spec (len data - 0) 18); [lia|reflexivity].
Qed.

Lemma bytes_eqb_neq a b : a <> b -> bytes_eqb a b = false.
Proof.
  intros H. destruct (bytes_eqb a b) eqn:E; [|reflexivity].
  apply bytes_eqb_eq in E. contradiction.
Qed.

Lemma bytes_eqb_refl a : bytes_eqb a a = true.
Proof. apply bytes_eqb_eq. reflexivity. Qed.

(** No table comes out of a buffer shorter than a header: it raises
    [struct.error] before any tag is compared. *)
Lemma parse_short_buffer data encoding :
  len data < 18 -> _parse data encoding = raise StructError.
Proof.
  intros H. unfold _parse. rewrite (unpack_hdr_short _ H). reflexivity.
Qed.

(** C6, counterexample: the four bytes [XXXX] do not start with the
    signature, and decoding them raises [struct.error], not the
    [ValueError] of a tag mismatch. *)
Lemma parse_four_bytes_struct_error :
  firstn 4 four_bytes <> TLK_SIGNATURE
  /\ _parse four_bytes cp1252 = raise StructError
  /\ ~ (exists m, _parse four_bytes cp1252 = raise (ValueError m)).
Proof.
  split; [discriminate|]. split; [reflexivity|].
  intros [m H]. discriminate H.
Qed.

(** C6, amended: a buffer of at least 18 bytes whose first 4 bytes are not
    [TLK ] or whose next 4 bytes are not [V1  ] is rejected with a
    [ValueError], which reports the signature when it is wrong and the
    version otherwise, and no table is returned; any difference in a tag
    is enough. *)
Theorem parse_rejects_bad_tags (data : bytes) (encoding : codec) :
  18 <= len data ->
  firstn 4 data <> TLK_SIGNATURE
  \/ firstn 4 (skipn 4 data) <> TLK_VERSION ->
  exists m,
    _parse data encoding = raise (ValueError m)
    /\ (firstn 4 data <> TLK_SIGNATURE ->
        m = NotATlkFile (firstn 4 data))
    /\ (firstn 4 data = TLK_SIGNATURE ->
        m = UnsupportedVersion (firstn 4 (skipn 4 data))).
Proof.
  intros Hlen Hbad. unfold _parse.
  rewrite (unpack_hdr_long _ Hlen). cbn [bind Ok].
  destruct (list_eq_dec Byte.byte_eq_dec (firstn 4 data) TLK_SIGNATURE)
    as [Hs|Hs].
  - destruct Hbad as [Hbad|Hbad]; [contradiction|].
    rewrite Hs, bytes_eqb_refl, (bytes_eqb_neq _ _ Hbad). cbn [negb].
    eexists. split; [reflexivity|]. split; [contradiction|reflexivity].
  - rewrite (bytes_eqb_neq _ _ Hs). cbn [negb].
    eexists. split; [reflexivity|]. split; [reflexivity|contradiction].
Qed.

Lemma parse_rejects_bad_tags_witness :
  exists m,
    _parse version_2_header cp1252 = raise (ValueError m)
    /\ (firstn 4 version_2_header <> TLK_SIGNATURE ->
        m = NotATlkFile (firstn 4 version_2_header))
    /\ (firstn 4 version_2_header = TLK_SIGNATURE ->
        m = UnsupportedVersion (firstn 4 (skipn 4 version_2_header))).
Proof.
  apply (parse_rejects_bad_tags version_2_header cp1252).
  - vm_compute. discriminate.
  - right. vm_compute. discriminate.
Defined.

Lemma unpack_entry_long data off :
  off + 26 <= len data ->
  unpack_entry data off =
  Ok (from_le (field data off 0 2), field data off 2 10,
      from_le (field data off 10 14), from_le (field data off 14 18),
      from_le (field data off 18 22), from_le (field data off 22 26)).
Proof.
  intros H. unfold unpack_entry, _ENTRY_SIZE.
  destruct (Z.ltb_spec (len data - off) 26); [lia|reflexivity].
Qed.

(** When the buffer holds the records, the loop of the decoder reads them
    all and raises nothing, wherever the string ranges point. *)
Lemma parse_entries_total encoding data string_base :
  0 <= string_base ->
  forall n k acc,
    entry_offset (k + n) <= len data ->
    parse_entries encoding data string_base n (Z.of_nat k) acc
    = Ok (acc ++ map (entry_at encoding data string_base) (seq k n)).
Proof.
  intros Hsb. induction n as [|n IH]; intros k acc Hlen.
  - simpl. rewrite app_nil_r. reflexivity.
  - cbn [parse_entries seq map].
    unfold entry_offset, _HDR_SIZE, _ENTRY_SIZE in *.
    rewrite unpack_entry_long by lia. cbn [bind Ok].
    rewrite getslice_clamped.
    + replace (Z.of_nat k + 1) with (Z.of_nat (S k)) by lia.
      rewrite IH by (unfold entry_offset, _HDR_SIZE, _ENTRY_SIZE; lia).
      rewrite <- app_assoc. reflexivity.
    + pose proof (from_le_nonneg (field data (18 + Z.of_nat k * 26) 18 22)).
      lia.
    + apply from_le_nonneg.
Qed.

Lemma nth_error_map_seq {A} (f : nat -> A) n i :
  (i < n)%nat -> nth_error (map f (seq 0 n)) i = Some (f i).
Proof.
  intros H. rewrite nth_error_map, nth_error_seq.
  destruct (Nat.ltb_spec i n); [reflexivity|lia].
Qed.

(** C2, counterexample: the only entry of [truncated_buffer] has the
    string range [44, 144), which ends far after the 46 bytes of the
    buffer; decoding raises nothing and returns the two bytes that are
    there as the text of the entry. *)
Lemma parse_truncated_buffer_no_error :
  len truncated_buffer = 46
  /\ string_range truncated_buffer 0 = Ok (44, 144)
  /\ _parse truncated_buffer cp1252
     = Ok (mkTlkFile 0 [mkTlkEntry (lit "Hi") (repeat x00 8) 1 0 0]).
Proof. repeat split; reflexivity. Qed.

(** C2, amended: a string range that leaves the buffer raises nothing.
    Whenever the buffer carries the two tags and holds the records of all
    the entries that its header announces, decoding returns a table with
    that many entries, and the text of each entry is decoded from the bytes
    of its string range that lie inside the buffer: all of them when the
    range is inside, fewer or none when it is not. *)
Theorem parse_clamps_string_range (data : bytes) (encoding : codec)
    (lang n string_base : Z) :
  unpack_hdr data 0 = Ok (TLK_SIGNATURE, TLK_VERSION, lang, n, string_base) ->
  _HDR_SIZE + n * _ENTRY_SIZE <= len data ->
  exists decoded,
    _parse data encoding = Ok decoded
    /\ language_id decoded = lang
    /\ len (entries decoded) = n
    /\ forall i, Z.of_nat i < n ->
         exists fl sound vol pitch str_off str_len,
           unpack_entry data (entry_offset i)
             = Ok (fl, sound, vol, pitch, str_off, str_len)
           /\ nth_error (entries decoded) i
              = Some (mkTlkEntry
                        (bytes_decode encoding
                           (firstn (Z.to_nat str_len)
                              (skipn (Z.to_nat (string_base + str_off))
                                 data)))
                        sound fl vol pitch).
Proof.
  intros Hhdr Hlen.
  assert (H18 : 18 <= len data).
  { destruct (Z_lt_le_dec (len data) 18) as [Hs|Hs]; [|exact Hs].
    rewrite (unpack_hdr_short _ Hs) in Hhdr. discriminate. }
  pose proof Hhdr as Hf. rewrite (unpack_hdr_long _ H18) in Hf.
  injection Hf as Hsig Hver Hlang Hn Hsb.
  assert (Hn0 : 0 <= n) by (rewrite <- Hn; apply from_le_nonneg).
  assert (Hsb0 : 0 <= string_base) by (rewrite <- Hsb; apply from_le_nonneg).
  exists (mkTlkFile lang
            (map (entry_at encoding data string_base)
               (seq 0 (Z.to_nat n)))).
  split.
  - unfold _parse. rewrite Hhdr. cbn [bind Ok].
    rewrite !bytes_eqb_refl. cbn [negb].
    pose proof (parse_entries_total encoding data string_base Hsb0
                  (Z.to_nat n) 0 []) as HP.
    cbn [Z.of_nat] in HP. rewrite HP.
    + reflexivity.
    + unfold entry_offset, _HDR_SIZE, _ENTRY_SIZE in *. lia.
  - split; [reflexivity|]. split.
    + cbn [entries]. unfold len. rewrite length_map, length_seq. lia.
    + intros i Hi. cbn [entries].
      rewrite unpack_entry_long
        by (unfold entry_offset, _HDR_SIZE, _ENTRY_SIZE in *; lia).
      do 6 eexists. split; [reflexivity|].
      rewrite nth_error_map_seq by lia. reflexivity.
Qed.

Lemma parse_clamps_string_range_witness :
  exists decoded,
    _parse truncated_buffer cp1252 = Ok decoded
    /\ language_id decoded = 0
    /\ len (entries decoded) = 1
    /\ forall i, Z.of_nat i < 1 ->
         exists fl sound vol pitch str_off str_len,
           unpack_entry truncated_buffer (entry_offset i)
             = Ok (fl, sound, vol, pitch, str_off, str_len)
           /\ nth_error (entries decoded) i
              = Some (mkTlkEntry
                        (bytes_decode cp1252
                           (firstn (Z.to_nat str_len)
                              (skipn (Z.to_nat (44 + str_off))
                                 truncated_buffer)))
                        sound fl vol pitch).
Proof.
  apply (parse_clamps_string_range truncated_buffer cp1252 0 1 44).
  - reflexivity.
  - vm_compute. discriminate.
Defined.

(** ** The self-tests of the scripts *)

(** The assertions of [TlkFile.run_self_test] hold. *)
Example run_self_test_passes :
  exists raw tlk2,
    to_bytes self_test_table cp1252 = Ok raw
    /\ _parse raw cp1252 = Ok tlk2
    /\ length (entries tlk2) = length (entries self_test_table)
    /\ map text (entries tlk2) = map text (entries self_test_table).
Proof.
  eexists _, _.
  split; [vm_compute; reflexivity|].
  split; [vm_compute; reflexivity|].
  split; reflexivity.
Qed.

(** The assertions of the merge self-test of [main] hold. *)
Example merge_self_test_passes :
  exists out merged,
    merge_tlks test_primary test_secondary dash_separator false
      = (out, Ok merged)
    /\ map text (entries merged)
       = [ lit "Hallo Welt" ++ dash_separator ++ lit "Hello World";
           [];
           lit "Gleicher Text";
           nur_primaer ].
Proof. eexists _, _. split; reflexivity. Qed.

(** * Further properties of the codec *)

(** ** Failures of the writer *)

Lemma bind_inl_inv {A B} (m : result A) (k : A -> result B) e :
  bind m k = inl e -> m = inl e \/ exists a, m = Ok a /\ k a = inl e.
Proof.
  destruct m as [e'|a]; simpl; intros H.
  - left. inversion H. reflexivity.
  - right. exists a. split; [reflexivity|exact H].
Qed.

Lemma pack_H_err x e : pack_H x = inl e -> e = StructError.
Proof.
  unfold pack_H. destruct ((0 <=? x) && (x <=? 65535)); simpl;
    intros H; [discriminate|]. inversion H. reflexivity.
Qed.

Lemma pack_I_err x e : pack_I x = inl e -> e = StructError.
Proof.
  unfold pack_I. destruct ((0 <=? x) && (x <=? 4294967295)); simpl;
    intros H; [discriminate|]. inversion H. reflexivity.
Qed.

Lemma pack_hdr_err sig ver lang n off e :
  pack_hdr sig ver lang n off = inl e -> e = StructError.
Proof.
  unfold pack_hdr. intros H.
  apply bind_inl_inv in H. destruct H as [H|(b1 & _ & H)];
    [exact (pack_H_err _ _ H)|].
  apply bind_inl_inv in H. destruct H as [H|(b2 & _ & H)];
    [exact (pack_I_err _ _ H)|].
  apply bind_inl_inv in H. destruct H as [H|(b3 & _ & H)];
    [exact (pack_I_err _ _ H)|].
  discriminate H.
Qed.

Lemma pack_entry_err fl sound vol pitch off ln e :
  pack_entry fl sound vol pitch off ln = inl e -> e = StructError.
Proof.
  unfold pack_entry. intros H.
  apply bind_inl_inv in H. destruct H as [H|(b1 & _ & H)];
    [exact (pack_H_err _ _ H)|].
  apply bind_inl_inv in H. destruct H as [H|(b2 & _ & H)];
    [exact (pack_I_err _ _ H)|].
  apply bind_inl_inv in H. destruct H as [H|(b3 & _ & H)];
    [exact (pack_I_err _ _ H)|].
  apply bind_inl_inv in H. destruct H as [H|(b4 & _ & H)];
    [exact (pack_I_err _ _ H)|].
  apply bind_inl_inv in H. destruct H as [H|(b5 & _ & H)];
    [exact (pack_I_err _ _ H)|].
  discriminate H.
Qed.

(** The two lists that the second loop of the writer indexes are as long
    as the table, so that the only failure of the loop is a failed
    [struct.pack]. *)
Lemma build_entry_table_err encoding offs encs rest : forall k o acc e,
  skipn k offs = offsets_from o (encoded encoding rest) ->
  skipn k encs = encoded encoding rest ->
  build_entry_table offs encs (combine (seq k (length rest)) rest) acc
    = inl e ->
  e = StructError.
Proof.
  induction rest as [|x rest IH]; intros k o acc e Ho He Hb.
  - discriminate Hb.
  - cbn [length seq combine build_entry_table] in Hb.
    cbn [encoded map offsets_from] in Ho, He.
    apply skipn_cons_nth in Ho. destruct Ho as [Ho1 Ho2].
    apply skipn_cons_nth in He. destruct He as [He1 He2].
    rewrite (getitem_Some _ _ _ Ho1), (getitem_Some _ _ _ He1) in Hb.
    cbn [bind Ok] in Hb.
    apply bind_inl_inv in Hb. destruct Hb as [Hb|(packed & _ & Hb)].
    + exact (pack_entry_err _ _ _ _ _ _ _ Hb).
    + exact (IH _ _ _ _ Ho2 He2 Hb).
Qed.

Lemma to_bytes_err self encoding e :
  to_bytes self encoding = inl e -> e = StructError.
Proof.
  unfold to_bytes. rewrite build_string_block_spec. cbn [app].
  intros H.
  apply bind_inl_inv in H. destruct H as [H|(header & _ & H)];
    [exact (pack_hdr_err _ _ _ _ _ _ H)|].
  apply bind_inl_inv in H. destruct H as [H|(table & _ & H)];
    [|discriminate H].
  unfold enumerate in H.
  exact (build_entry_table_err encoding _ _ _ 0%nat 0 [] e
           eq_refl eq_refl H).
Qed.

(** X1: when [to_bytes] raises, the exception is [struct.error], never an
    [IndexError] of its own lists, and some integer of the table does not
    fit its field. *)
Theorem to_bytes_raises_only_struct_error (self : TlkFile)
    (encoding : codec) (e : exn) :
  to_bytes self encoding = raise e ->
  e = StructError /\ ~ packable self encoding.
Proof.
  intros H. split; [exact (to_bytes_err _ _ _ H)|].
  intros Hp. rewrite (to_bytes_layout _ _ Hp) in H. discriminate H.
Qed.

Lemma to_bytes_raises_only_struct_error_witness :
  StructError = StructError /\ ~ packable oversized_table cp1252.
Proof.
  apply (to_bytes_raises_only_struct_error oversized_table cp1252
           StructError).
  reflexivity.
Defined.

(** ** Size of the buffer *)

Lemma len_layout self encoding :
  len (layout self encoding) =
  18 + 26 * len (entries self)
  + len (concat (encoded encoding (entries self))).
Proof.
  unfold layout.
  rewrite !len_app, len_header_bytes, len_entry_records. lia.
Qed.

Lemma to_bytes_Ok_layout self encoding buf :
  to_bytes self encoding = Ok buf ->
  packable self encoding /\ buf = layout self encoding.
Proof.
  intros H.
  assert (Hp : packable self encoding)
    by (apply to_bytes_Ok_iff; exists buf; exact H).
  split; [exact Hp|].
  rewrite (to_bytes_layout _ _ Hp) in H. inversion H. reflexivity.
Qed.

(** X2: a buffer that [to_bytes] returns takes 18 bytes for the header,
    26 bytes per entry and the bytes of the encoded texts, and nothing
    more. *)
Theorem to_bytes_length (self : TlkFile) (encoding : codec) (buf : bytes) :
  to_bytes self encoding = Ok buf ->
  len buf =
  18 + 26 * len (entries self)
  + len (concat (encoded encoding (entries self))).
Proof.
  intros H. destruct (to_bytes_Ok_layout _ _ _ H) as [_ ->].
  apply len_layout.
Qed.

Lemma to_bytes_length_witness :
  len (layout sample_table cp1252) =
  18 + 26 * len (entries sample_table)
  + len (concat (encoded cp1252 (entries sample_table))).
Proof.
  apply (to_bytes_length sample_table cp1252 (layout sample_table cp1252)).
  vm_compute. reflexivity.
Defined.

(** ** Encoding what was decoded *)

Lemma pack_s_idem n b : pack_s n (pack_s n b) = pack_s n b.
Proof.
  unfold pack_s at 1. rewrite firstn_all2 by (rewrite length_pack_s; lia).
  rewrite length_pack_s, Nat.sub_diag. apply app_nil_r.
Qed.

Lemma recalc_flags_reread encoding e :
  representable encoding (text e) ->
  recalc_flags (reread encoding e) = recalc_flags e.
Proof.
  intros Hr. unfold recalc_flags at 1. unfold reread. cbn [text flags].
  rewrite Hr. unfold recalc_flags. destruct (truthy (text e)).
  - rewrite <- Z.lor_assoc, Z.lor_diag. reflexivity.
  - rewrite <- Z.land_assoc, Z.land_diag. reflexivity.
Qed.

Lemma encoded_reread encoding es :
  Forall (fun e => representable encoding (text e)) es ->
  encoded encoding (map (reread encoding) es) = encoded encoding es.
Proof.
  unfold encoded.
  induction 1 as [|e es He _ IH]; [reflexivity|].
  cbn [map]. rewrite IH. f_equal.
  unfold reread. cbn [text]. rewrite He. reflexivity.
Qed.

Lemma entry_records_reread encoding es :
  Forall (fun e => representable encoding (text e)) es ->
  forall o,
    entry_records encoding (map (reread encoding) es) o
    = entry_records encoding es o.
Proof.
  induction 1 as [|e es He _ IH]; intros o; [reflexivity|].
  cbn [map entry_records]. rewrite IH.
  assert (Ht : str_encode encoding (text (reread encoding e))
               = str_encode encoding (text e)).
  { unfold reread. cbn [text]. rewrite He. reflexivity. }
  rewrite Ht. f_equal. unfold entry_record.
  rewrite (recalc_flags_reread _ _ He).
  unfold reread at 1 2 3. cbn [sound_resref volume_variance pitch_variance].
  rewrite pack_s_idem. reflexivity.
Qed.

Lemma packable_reread self encoding :
  packable self encoding ->
  Forall (fun e => representable encoding (text e)) (entries self) ->
  packable (mkTlkFile (language_id self)
              (map (reread encoding) (entries self))) encoding.
Proof.
  intros (Hlang & Hso & Hes & Hoffs & Hlens) Hr.
  unfold packable. cbn [language_id entries].
  rewrite (encoded_reread _ _ Hr).
  split; [exact Hlang|]. split.
  { unfold len in *. rewrite length_map. exact Hso. }
  split; [|split; assumption].
  clear - Hes. induction Hes as [|e es [Hfl [Hv Hp]] _ IH]; constructor.
  - unfold packable_entry, reread. cbn [flags volume_variance pitch_variance].
    split; [apply recalc_flags_u16, Hfl|]. split; assumption.
  - exact IH.
Qed.

Lemma layout_reread self encoding :
  Forall (fun e => representable encoding (text e)) (entries self) ->
  layout (mkTlkFile (language_id self)
            (map (reread encoding) (entries self))) encoding
  = layout self encoding.
Proof.
  intros Hr. unfold layout, header_bytes. cbn [language_id entries].
  rewrite (entry_records_reread _ _ Hr), (encoded_reread _ _ Hr).
  unfold len. rewrite length_map. reflexivity.
Qed.

(** X3: encoding is stable under a round trip.  When a table is encoded
    with texts that the codec represents, encoding the decoded table gives
    the very same bytes again. *)
Theorem reencode_same_bytes (self : TlkFile) (encoding : codec) :
  packable self encoding ->
  Forall (fun e => representable encoding (text e)) (entries self) ->
  exists buf decoded,
    to_bytes self encoding = Ok buf
    /\ _parse buf encoding = Ok decoded
    /\ to_bytes decoded encoding = Ok buf.
Proof.
  intros Hp Hr.
  exists (layout self encoding),
    (mkTlkFile (language_id self) (map (reread encoding) (entries self))).
  split; [apply to_bytes_layout, Hp|].
  split; [apply parse_layout, Hp|].
  rewrite (to_bytes_layout _ _ (packable_reread _ _ Hp Hr)).
  rewrite (layout_reread _ _ Hr). reflexivity.
Qed.

Lemma reencode_same_bytes_witness :
  exists buf decoded,
    to_bytes sample_table cp1252 = Ok buf
    /\ _parse buf cp1252 = Ok decoded
    /\ to_bytes decoded cp1252 = Ok buf.
Proof.
  apply (reencode_same_bytes sample_table cp1252).
  - packable_by_evaluation.
  - repeat constructor.
Defined.

(** ** Bytes after the string block *)

Lemma field_app_l (d x : bytes) off a b :
  0 <= off + a -> a <= b -> off + b <= len d ->
  field (d ++ x) off a b = field d off a b.
Proof.
  unfold field, len. intros Ha Hab Hb.
  rewrite skipn_app, firstn_app.
  replace (Z.to_nat (off + a) - length d)%nat with 0%nat by lia.
  rewrite length_skipn.
  replace (Z.to_nat (b - a) - (length d - Z.to_nat (off + a)))%nat
    with 0%nat by lia.
  simpl. apply app_nil_r.
Qed.

Lemma unpack_entry_app_l (d x : bytes) off :
  0 <= off -> off + 26 <= len d ->
  unpack_entry (d ++ x) off = unpack_entry d off.
Proof.
  intros H0 Hl. pose proof (len_nonneg x).
  rewrite (unpack_entry_long d off Hl).
  rewrite unpack_entry_long by (rewrite len_app; lia).
  rewrite !field_app_l by lia. reflexivity.
Qed.

Lemma unpack_hdr_app_l (d x : bytes) :
  18 <= len d -> unpack_hdr (d ++ x) 0 = unpack_hdr d 0.
Proof.
  intros Hl. pose proof (len_nonneg x).
  unfold unpack_hdr, _HDR_SIZE. rewrite len_app.
  destruct (Z.ltb_spec (len d + len x - 0) 18); [lia|].
  destruct (Z.ltb_spec (len d - 0) 18); [lia|].
  rewrite !field_app_l by lia. reflexivity.
Qed.

Lemma getslice_app_l {A} (d x : list A) a n :
  0 <= a -> 0 <= n -> a + n <= len d ->
  getslice (d ++ x) a (a + n) = getslice d a (a + n).
Proof.
  unfold len. intros Ha Hn Hl.
  rewrite !getslice_clamped by lia.
  rewrite skipn_app, firstn_app.
  replace (Z.to_nat a - length d)%nat with 0%nat by lia.
  rewrite length_skipn.
  replace (Z.to_nat n - (length d - Z.to_nat a))%nat with 0%nat by lia.
  simpl. apply app_nil_r.
Qed.

Lemma len_concat_encoded_split encoding (l1 : list TlkEntry) e l2 :
  len (concat (encoded encoding (l1 ++ e :: l2))) =
  len (concat (encoded encoding l1))
  + len (str_encode encoding (text e))
  + len (concat (encoded encoding l2)).
Proof.
  rewrite encoded_app, concat_app, len_app.
  cbn [encoded map concat]. rewrite len_app. unfold encoded. lia.
Qed.

Lemma parse_entries_layout_app self encoding extra :
  packable self encoding ->
  forall l2 l1 acc,
    entries self = l1 ++ l2 ->
    parse_entries encoding (layout self encoding ++ extra)
      (_HDR_SIZE + len (entries self) * _ENTRY_SIZE)
      (length l2) (len l1) acc
    = Ok (acc ++ map (reread encoding) l2).
Proof.
  intros Hp. induction l2 as [|e l2 IH]; intros l1 acc Hsplit.
  - simpl. rewrite app_nil_r. reflexivity.
  - cbn [length parse_entries].
    pose proof (len_layout self encoding) as Hlen.
    pose proof (len_concat_encoded_split encoding l1 e l2) as Hcat.
    rewrite <- Hsplit in Hcat.
    pose proof (len_nonneg (concat (encoded encoding l1))).
    pose proof (len_nonneg (concat (encoded encoding l2))).
    pose proof (len_nonneg (str_encode encoding (text e))).
    pose proof (len_nonneg l1). pose proof (len_nonneg l2).
    assert (Hn : len (entries self) = len l1 + 1 + len l2).
    { rewrite Hsplit, len_app. unfold len. simpl length. lia. }
    rewrite unpack_entry_app_l
      by (unfold _HDR_SIZE, _ENTRY_SIZE; lia).
    rewrite (wire_entry self encoding l1 e l2 Hp Hsplit). cbn [bind Ok].
    rewrite getslice_app_l
      by (unfold _HDR_SIZE, _ENTRY_SIZE; lia).
    rewrite (wire_string self encoding l1 e l2 Hsplit).
    replace (len l1 + 1) with (len (l1 ++ [e]))
      by (rewrite len_app; reflexivity).
    rewrite IH by (rewrite <- app_assoc; exact Hsplit).
    rewrite <- app_assoc. reflexivity.
Qed.

(** X4: the decoder does not look past the string block.  Whatever bytes
    follow a buffer that [to_bytes] returned, decoding gives the table that
    the buffer alone decodes to. *)
Theorem parse_ignores_trailing_bytes (self : TlkFile) (encoding : codec)
    (buf extra : bytes) :
  to_bytes self encoding = Ok buf ->
  _parse (buf ++ extra) encoding = _parse buf encoding.
Proof.
  intros H. destruct (to_bytes_Ok_layout _ _ _ H) as [Hp ->].
  rewrite (parse_layout _ _ Hp).
  unfold _parse.
  rewrite unpack_hdr_app_l
    by (rewrite len_layout;
        pose proof (len_nonneg (entries self));
        pose proof (len_nonneg (concat (encoded encoding (entries self))));
        lia).
  rewrite (wire_header _ _ Hp). cbn [bind Ok].
  rewrite !bytes_eqb_refl. cbn [negb].
  pose proof (parse_entries_layout_app self encoding extra Hp
                (entries self) [] []) as HP.
  unfold len in *. rewrite Nat2Z.id. cbn [length Z.of_nat app] in HP.
  rewrite HP by reflexivity. reflexivity.
Qed.

Lemma parse_ignores_trailing_bytes_witness :
  _parse (layout sample_table cp1252 ++ [xff; xff; xff]) cp1252
  = _parse (layout sample_table cp1252) cp1252.
Proof.
  apply (parse_ignores_trailing_bytes sample_table cp1252).
  vm_compute. reflexivity.
Defined.

(** ** Every outcome of the decoder *)

Lemma unpack_entry_short data off :
  len data < off + 26 -> unpack_entry data off = raise StructError.
Proof.
  intros H. unfold unpack_entry, _ENTRY_SIZE.
  destruct (Z.ltb_spec (len data - off) 26); [reflexivity|lia].
Qed.

(** When the buffer ends before the last record, the loop of the decoder
    raises [struct.error] at the first record that is not whole. *)
Lemma parse_entries_short encoding data string_base : forall n k acc,
  len data < entry_offset (k + n) -> (0 < n)%nat ->
  parse_entries encoding data string_base n (Z.of_nat k) acc
  = raise StructError.
Proof.
  induction n as [|n IH]; intros k acc Hlen Hn; [lia|].
  cbn [parse_entries].
  unfold entry_offset, _HDR_SIZE, _ENTRY_SIZE in *.
  destruct (Z_lt_le_dec (len data) (18 + Z.of_nat k * 26 + 26)) as [Hs|Hl].
  - rewrite unpack_entry_short by lia. reflexivity.
  - rewrite unpack_entry_long by lia. cbn [bind Ok].
    replace (Z.of_nat k + 1) with (Z.of_nat (S k)) by lia.
    apply IH; unfold entry_offset, _HDR_SIZE, _ENTRY_SIZE; lia.
Qed.

Lemma unpack_hdr_Ok_inv data sig ver lang n string_base :
  unpack_hdr data 0 = Ok (sig, ver, lang, n, string_base) ->
  18 <= len data /\ sig = firstn 4 data /\ ver = firstn 4 (skipn 4 data)
  /\ 0 <= n /\ 0 <= string_base.
Proof.
  intros H.
  assert (H18 : 18 <= len data).
  { destruct (Z_lt_le_dec (len data) 18) as [Hs|Hs]; [|exact Hs].
    rewrite (unpack_hdr_short _ Hs) in H. discriminate. }
  rewrite (unpack_hdr_long _ H18) in H.
  injection H as Hsig Hver Hlang Hn Hsb.
  split; [exact H18|]. split; [symmetry; exact Hsig|].
  split; [symmetry; exact Hver|]. split.
  - rewrite <- Hn. apply from_le_nonneg.
  - rewrite <- Hsb. apply from_le_nonneg.
Qed.

Lemma parse_with_tags data encoding lang n string_base :
  unpack_hdr data 0 = Ok (TLK_SIGNATURE, TLK_VERSION, lang, n, string_base) ->
  _parse data encoding =
  if len data <? _HDR_SIZE + n * _ENTRY_SIZE then raise StructError
  else Ok (mkTlkFile lang
             (map (entry_at encoding data string_base)
                (seq 0 (Z.to_nat n)))).
Proof.
  intros Hhdr.
  destruct (unpack_hdr_Ok_inv _ _ _ _ _ _ Hhdr) as (H18 & _ & _ & Hn & Hsb).
  unfold _parse. rewrite Hhdr. cbn [bind Ok].
  rewrite !bytes_eqb_refl. cbn [negb].
  unfold _HDR_SIZE, _ENTRY_SIZE.
  destruct (Z.ltb_spec (len data) (18 + n * 26)) as [Hs|Hl].
  - pose proof (parse_entries_short encoding data string_base
                  (Z.to_nat n) 0 []) as HP.
    cbn [Z.of_nat] in HP. rewrite HP; [reflexivity| |lia].
    unfold entry_offset, _HDR_SIZE, _ENTRY_SIZE. lia.
  - pose proof (parse_entries_total encoding data string_base Hsb
                  (Z.to_nat n) 0 []) as HP.
    cbn [Z.of_nat] in HP. rewrite HP; [reflexivity|].
    unfold entry_offset, _HDR_SIZE, _ENTRY_SIZE. lia.
Qed.

Lemma parse_rejects_tags_value_error data encoding :
  18 <= len data ->
  firstn 4 data <> TLK_SIGNATURE
  \/ firstn 4 (skipn 4 data) <> TLK_VERSION ->
  exists m, _parse data encoding = raise (ValueError m).
Proof.
  intros Hlen Hbad. unfold _parse.
  rewrite (unpack_hdr_long _ Hlen). cbn [bind Ok].
  destruct (list_eq_dec Byte.byte_eq_dec (firstn 4 data) TLK_SIGNATURE)
    as [Hs|Hs].
  - destruct Hbad as [Hbad|Hbad]; [contradiction|].
    rewrite Hs, bytes_eqb_refl, (bytes_eqb_neq _ _ Hbad). cbn [negb].
    eexists. reflexivity.
  - rewrite (bytes_eqb_neq _ _ Hs). cbn [negb]. eexists. reflexivity.
Qed.

(** X5: all that the decoder can do with a buffer.  It returns a table
    exactly when the buffer holds a header with the two tags and the
    records of all the entries that the header announces, and the table
    then has that many entries; it raises [struct.error] exactly when the
    buffer is shorter than a header or, the tags being right, shorter than
    the end of the entry table; it raises [ValueError] exactly when the
    header is whole and a tag is wrong; it never raises [IndexError]. *)
Theorem parse_outcome (data : bytes) (encoding : codec) :
  match _parse data encoding with
  | inr decoded =>
      exists n string_base,
        unpack_hdr data 0
          = Ok (TLK_SIGNATURE, TLK_VERSION, language_id decoded, n,
                string_base)
        /\ _HDR_SIZE + n * _ENTRY_SIZE <= len data
        /\ len (entries decoded) = n
  | inl StructError =>
      len data < _HDR_SIZE
      \/ exists lang n string_base,
           unpack_hdr data 0
             = Ok (TLK_SIGNATURE, TLK_VERSION, lang, n, string_base)
           /\ len data < _HDR_SIZE + n * _ENTRY_SIZE
  | inl (ValueError m) =>
      _HDR_SIZE <= len data
      /\ (firstn 4 data <> TLK_SIGNATURE
          \/ firstn 4 (skipn 4 data) <> TLK_VERSION)
  | inl IndexError => False
  end.
Proof.
  destruct (Z_lt_le_dec (len data) 18) as [Hs|H18].
  { rewrite (parse_short_buffer _ _ Hs). left. exact Hs. }
  destruct (list_eq_dec Byte.byte_eq_dec (firstn 4 data) TLK_SIGNATURE)
    as [Hsig|Hsig].
  2:{ destruct (parse_rejects_tags_value_error data encoding H18
                  (or_introl Hsig)) as [m ->].
      split; [exact H18|]. left. exact Hsig. }
  destruct (list_eq_dec Byte.byte_eq_dec (firstn 4 (skipn 4 data))
              TLK_VERSION) as [Hver|Hver].
  2:{ destruct (parse_rejects_tags_value_error data encoding H18
                  (or_intror Hver)) as [m ->].
      split; [exact H18|]. right. exact Hver. }
  pose proof (unpack_hdr_long _ H18) as Hhdr. rewrite Hsig, Hver in Hhdr.
  rewrite (parse_with_tags _ encoding _ _ _ Hhdr).
  destruct (unpack_hdr_Ok_inv _ _ _ _ _ _ Hhdr) as (_ & _ & _ & Hn & _).
  destruct (Z.ltb_spec (len data)
              (_HDR_SIZE + from_le (field data 0 10 14) * _ENTRY_SIZE))
    as [Hlt|Hge].
  - right. eexists _, _, _. split; [exact Hhdr|exact Hlt].
  - eexists _, _. split; [exact Hhdr|]. split; [exact Hge|].
    cbn [entries]. unfold len. rewrite length_map, length_seq. lia.
Qed.

(** X6: a buffer with the two tags whose entry table is cut short is
    rejected with [struct.error]; this is the bounds failure of the
    decoder. *)
Theorem parse_truncated_entry_table (data : bytes) (encoding : codec)
    (lang n string_base : Z) :
  unpack_hdr data 0 = Ok (TLK_SIGNATURE, TLK_VERSION, lang, n, string_base) ->
  len data < _HDR_SIZE + n * _ENTRY_SIZE ->
  _parse data encoding = raise StructError.
Proof.
  intros Hhdr Hlen. rewrite (parse_with_tags _ encoding _ _ _ Hhdr).
  destruct (Z.ltb_spec (len data) (_HDR_SIZE + n * _ENTRY_SIZE));
    [reflexivity|lia].
Qed.

Lemma parse_truncated_entry_table_witness :
  _parse one_record_short cp1252 = raise StructError.
Proof.
  apply (parse_truncated_entry_table one_record_short cp1252 0 2 70).
  - reflexivity.
  - vm_compute. reflexivity.
Defined.

(** ** The empty table *)

(** X7: a table without entries is encoded as the 18 bytes of the header
    alone, with 18 as the offset of the (empty) string block, and these
    bytes decode to the table without entries again. *)
Theorem empty_table_is_header_only (lang : Z) (encoding : codec) :
  u16 lang ->
  to_bytes (mkTlkFile lang []) encoding =
    Ok (TLK_SIGNATURE ++ TLK_VERSION ++ to_le 2 lang ++ to_le 4 0
        ++ to_le 4 18)
  /\ _parse (TLK_SIGNATURE ++ TLK_VERSION ++ to_le 2 lang ++ to_le 4 0
             ++ to_le 4 18) encoding
     = Ok (mkTlkFile lang []).
Proof.
  intros Hl.
  assert (Hp : packable (mkTlkFile lang []) encoding).
  { unfold packable. cbn [language_id entries encoded map offsets_from].
    split; [exact Hl|]. split; [cbv; split; discriminate|].
    repeat split; constructor. }
  pose proof (to_bytes_layout _ _ Hp) as Hb.
  pose proof (parse_layout _ _ Hp) as Hd.
  unfold layout, header_bytes in Hb, Hd.
  cbn [language_id entries entry_records encoded map concat] in Hb, Hd.
  rewrite !app_nil_r in Hb, Hd.
  split; [exact Hb|exact Hd].
Qed.

Lemma empty_table_is_header_only_witness :
  to_bytes (mkTlkFile 7 []) cp1252 =
    Ok (TLK_SIGNATURE ++ TLK_VERSION ++ to_le 2 7 ++ to_le 4 0
        ++ to_le 4 18)
  /\ _parse (TLK_SIGNATURE ++ TLK_VERSION ++ to_le 2 7 ++ to_le 4 0
             ++ to_le 4 18) cp1252
     = Ok (mkTlkFile 7 []).
Proof.
  apply (empty_table_is_header_only 7 cp1252).
  unfold u16. lia.
Defined.

(** ** The accessors of a decoded entry *)

Lemma land_pow2 f k :
  0 <= k -> Z.land f (2 ^ k) = if Z.testbit f k then 2 ^ k else 0.
Proof.
  intros Hk. apply Z.bits_inj'. intros n Hn.
  rewrite Z.land_spec, Z.pow2_bits_eqb by lia.
  destruct (Z.eqb_spec k n) as [->|Hne].
  - destruct (Z.testbit f n) eqn:E.
    + rewrite Z.pow2_bits_eqb, Z.eqb_refl by lia. reflexivity.
    + rewrite Z.bits_0. reflexivity.
  - rewrite andb_false_r. destruct (Z.testbit f k).
    + rewrite Z.pow2_bits_eqb by lia.
      destruct (Z.eqb_spec k n); [contradiction|reflexivity].
    + rewrite Z.bits_0. reflexivity.
Qed.

Lemma has_text_testbit e : has_text e = Z.testbit (flags e) 0.
Proof.
  unfold has_text, FLAG_TEXT. change 1 with (2 ^ 0).
  rewrite land_pow2 by lia. destruct (Z.testbit (flags e) 0); reflexivity.
Qed.

Lemma has_sound_testbit e : has_sound e = Z.testbit (flags e) 1.
Proof.
  unfold has_sound, FLAG_SOUND. change 2 with (2 ^ 1).
  rewrite land_pow2 by lia. destruct (Z.testbit (flags e) 1); reflexivity.
Qed.

(** X8: after a table is encoded and decoded, [has_text()] of an entry
    tells whether its text is non-empty, whatever it answered before, and
    [has_sound()] answers what it answered before. *)
Theorem roundtrip_accessors (self : TlkFile) (encoding : codec) :
  packable self encoding ->
  Forall (fun e => representable encoding (text e)) (entries self) ->
  exists buf decoded,
    to_bytes self encoding = Ok buf
    /\ _parse buf encoding = Ok decoded
    /\ Forall2 (fun e e' =>
                  has_text e' = negb (str_eqb (text e') [])
                  /\ has_sound e' = has_sound e)
         (entries self) (entries decoded).
Proof.
  intros Hp Hr.
  exists (layout self encoding),
    (mkTlkFile (language_id self) (map (reread encoding) (entries self))).
  split; [apply to_bytes_layout, Hp|].
  split; [apply parse_layout, Hp|]. cbn [entries].
  induction Hr as [|e es He _ IH]; simpl; constructor; [|exact IH].
  rewrite has_text_testbit, !has_sound_testbit.
  unfold reread. cbn [flags text]. rewrite He.
  rewrite recalc_flags_bit0, recalc_flags_high by lia.
  split; [|reflexivity]. destruct (text e); reflexivity.
Qed.

Lemma roundtrip_accessors_witness :
  exists buf decoded,
    to_bytes sample_table cp1252 = Ok buf
    /\ _parse buf cp1252 = Ok decoded
    /\ Forall2 (fun e e' =>
                  has_text e' = negb (str_eqb (text e') [])
                  /\ has_sound e' = has_sound e)
         (entries sample_table) (entries decoded).
Proof.
  apply (roundtrip_accessors sample_table cp1252).
  - packable_by_evaluation.
  - repeat constructor.
Defined.

(** * Further properties of the merge *)

(** ** What is printed *)

Lemma count_pairs_cons f ps l :
  count_pairs f (ps :: l) =
  (if f (pair_outcome ps) then 1 else 0) + count_pairs f l.
Proof.
  unfold count_pairs, len. cbn [filter].
  destruct (f (pair_outcome ps)); cbn [length]; lia.
Qed.

Lemma count_pairs_nil f : count_pairs f [] = 0.
Proof. reflexivity. Qed.

Lemma count_pairs_sum l :
  count_pairs is_combine l + count_pairs is_kept l + count_pairs is_empty l
  = len l.
Proof.
  induction l as [|ps l IH]; [reflexivity|].
  rewrite !count_pairs_cons.
  replace (len (ps :: l)) with (1 + len l)
    by (unfold len; cbn [length]; lia).
  destruct (pair_outcome ps); cbn [is_combine is_kept is_empty]; lia.
Qed.

(** The loop adds to each counter the number of pairs of its kind. *)
Lemma merge_loop_counts P S sep swap n : forall i acc st,
  (i + n <= length (combine (entries P) (entries S)))%nat ->
  merge_loop P S sep swap n i acc st =
  Ok (acc ++ map (merge_pair sep swap)
               (firstn n (skipn i (combine (entries P) (entries S)))),
      mkStats (st_total st)
        (st_combined st
         + count_pairs is_combine
             (firstn n (skipn i (combine (entries P) (entries S)))))
        (st_kept st
         + count_pairs is_kept
             (firstn n (skipn i (combine (entries P) (entries S)))))
        (st_empty st
         + count_pairs is_empty
             (firstn n (skipn i (combine (entries P) (entries S)))))).
Proof.
  induction n as [|n IH]; intros i acc st Hn; cbn [merge_loop].
  - cbn [firstn map]. rewrite app_nil_r, !count_pairs_nil, !Z.add_0_r.
    destruct st; reflexivity.
  - destruct (nth_error (combine (entries P) (entries S)) i)
      as [[p s]|] eqn:E.
    2:{ apply nth_error_None in E. lia. }
    pose proof E as E'. rewrite nth_error_combine in E'.
    destruct (nth_error (entries P) i) as [p'|] eqn:Ep; try discriminate.
    destruct (nth_error (entries S) i) as [s'|] eqn:Es; try discriminate.
    inversion E'; subst p' s'.
    rewrite (getitem_Some _ _ _ Ep), (getitem_Some _ _ _ Es).
    cbn [bind Ok].
    rewrite IH by lia.
    rewrite (firstn_skipn_S _ _ _ _ E). cbn [map].
    rewrite !count_pairs_cons, <- app_assoc. cbn [app].
    unfold pair_outcome at 1 2 3. cbn [fst snd].
    unfold merge_pair at 2. cbn [fst snd].
    destruct (decide_outcome (strip (text p)) (strip (text s)));
      cbn [count_outcome is_combine is_kept is_empty st_total st_combined
           st_kept st_empty];
      do 2 f_equal; f_equal; lia.
Qed.

Lemma merge_prints_lines P S sep swap :
  fst (merge_tlks P S sep swap) =
    (if len (entries P) =? len (entries S) then []
     else [CountMismatchWarning (len (entries P)) (len (entries S))])
    ++ [MergedSummary (len (combine (entries P) (entries S)))
          (count_pairs is_combine (combine (entries P) (entries S)))
          (count_pairs is_kept (combine (entries P) (entries S)))
          (count_pairs is_empty (combine (entries P) (entries S)))]
  /\ len (combine (entries P) (entries S))
     = Z.min (len (entries P)) (len (entries S)).
Proof.
  assert (Hc : Z.to_nat (Z.min (len (entries P)) (len (entries S)))
               = length (combine (entries P) (entries S))).
  { unfold len. rewrite length_combine. lia. }
  assert (Hl : len (combine (entries P) (entries S))
               = Z.min (len (entries P)) (len (entries S))).
  { unfold len at 1. rewrite <- Hc. unfold len. lia. }
  split; [|exact Hl].
  unfold merge_tlks.
  rewrite (merge_loop_counts P S sep swap _ 0 []) by lia.
  rewrite Hc. cbn [skipn]. rewrite firstn_all.
  cbn [fst st_total st_combined st_kept st_empty].
  rewrite !Z.add_0_l, <- Hl.
  destruct (len (entries P) =? len (entries S)); reflexivity.
Qed.

(** X9: what [merge_tlks] prints.  The warning about the entry counts is
    printed exactly when the counts differ; the summary that follows gives
    the number of merged entries and how many of them were combined, kept
    and left empty, and the three numbers add up to the first. *)
Theorem merge_prints_summary (P S : TlkFile) (sep : str) (swap : bool) :
  let pairs := combine (entries P) (entries S) in
  fst (merge_tlks P S sep swap) =
    (if len (entries P) =? len (entries S) then []
     else [CountMismatchWarning (len (entries P)) (len (entries S))])
    ++ [MergedSummary (len pairs) (count_pairs is_combine pairs)
          (count_pairs is_kept pairs) (count_pairs is_empty pairs)]
  /\ count_pairs is_combine pairs + count_pairs is_kept pairs
     + count_pairs is_empty pairs = len pairs
  /\ len pairs = Z.min (len (entries P)) (len (entries S)).
Proof.
  intros pairs. unfold pairs.
  destruct (merge_prints_lines P S sep swap) as [Hout Hl].
  split; [exact Hout|]. split; [apply count_pairs_sum|exact Hl].
Qed.

(** ** What is returned *)

Lemma merge_tlks_result P S sep swap :
  snd (merge_tlks P S sep swap) =
  Ok (mkTlkFile (language_id P)
        (map (merge_pair sep swap) (combine (entries P) (entries S)))).
Proof.
  destruct (merge_tlks_spec P S sep swap) as (c & k & e & H).
  rewrite H. reflexivity.
Qed.

Lemma combine_diag {A} (l : list A) :
  combine l l = map (fun x => (x, x)) l.
Proof.
  induction l as [|a l IH]; simpl; [reflexivity|]. rewrite IH. reflexivity.
Qed.

Lemma str_eqb_refl a : str_eqb a a = true.
Proof. apply str_eqb_eq. reflexivity. Qed.

Lemma merge_entry_diag p sep swap :
  (blank (text p) ->
   merge_entry p p sep swap =
   mkTlkEntry [] (sound_resref p)
     (Z.land (flags p) (Z.lnot FLAG_TEXT))
     (volume_variance p) (pitch_variance p))
  /\ (~ blank (text p) -> merge_entry p p sep swap = p).
Proof.
  unfold merge_entry, decide_outcome. rewrite str_eqb_refl.
  destruct (truthy (strip (text p))) eqn:E; cbn [negb andb orb].
  - apply truthy_strip_true in E. split; [contradiction|].
    intros _. destruct p; reflexivity.
  - apply truthy_strip_false in E. split; [reflexivity|contradiction].
Qed.

(** X10: merging a table with itself changes nothing but the blank
    entries.  Every entry whose text is not blank comes back as it is; an
    entry whose text is blank comes back with an empty text and bit 0 of
    its flags cleared.  A table without blank texts is therefore returned
    unchanged. *)
Theorem merge_with_itself (P : TlkFile) (sep : str) (swap : bool) :
  exists merged,
    snd (merge_tlks P P sep swap) = Ok merged
    /\ language_id merged = language_id P
    /\ Forall2 (fun p e =>
                  (blank (text p) ->
                   e = mkTlkEntry [] (sound_resref p)
                         (Z.land (flags p) (Z.lnot FLAG_TEXT))
                         (volume_variance p) (pitch_variance p))
                  /\ (~ blank (text p) -> e = p))
         (entries P) (entries merged)
    /\ (Forall (fun p => ~ blank (text p)) (entries P) -> merged = P).
Proof.
  rewrite merge_tlks_result, combine_diag, map_map.
  eexists. split; [reflexivity|]. split; [reflexivity|].
  cbn [entries]. unfold merge_pair. cbn [fst snd]. split.
  - induction (entries P) as [|p l IH]; simpl; constructor; [|exact IH].
    destruct (merge_entry_diag p sep swap) as [Hb Hn].
    split; intros H; [rewrite (Hb H)|rewrite (Hn H)]; reflexivity.
  - intros Hall. destruct P as [lang es]. cbn [language_id entries] in *.
    f_equal. induction Hall as [|p l Hp _ IH]; simpl; [reflexivity|].
    rewrite IH. f_equal. apply merge_entry_diag, Hp.
Qed.

Lemma blank_app a b : blank (a ++ b) <-> blank a /\ blank b.
Proof.
  unfold blank. rewrite forallb_app, andb_true_iff. reflexivity.
Qed.

Lemma blank_nil : blank [].
Proof. reflexivity. Qed.

(** X11: the merge loses no text.  The text of a merged entry is blank
    only when the texts of both entries are, and it is then empty.  When
    only the secondary text is blank, or the stripped texts are equal, the
    merged text is the whole primary text; when only the primary text is
    blank, it is the whole secondary text; when neither is blank and the
    stripped texts differ, it is the two whole texts with the separator
    between them, the primary first, or the secondary first when [swap] is
    set. *)
Theorem merge_keeps_text (P S : TlkFile) (sep : str) (swap : bool)
    (i : nat) (p s : TlkEntry) :
  nth_error (entries P) i = Some p ->
  nth_error (entries S) i = Some s ->
  exists merged e,
    snd (merge_tlks P S sep swap) = Ok merged
    /\ nth_error (entries merged) i = Some e
    /\ (blank (text e) <-> blank (text p) /\ blank (text s))
    /\ (blank (text e) -> text e = [])
    /\ (~ blank (text p) ->
        strip (text p) = strip (text s) \/ blank (text s) ->
        text e = text p)
    /\ (blank (text p) -> ~ blank (text s) -> text e = text s)
    /\ (~ blank (text p) -> ~ blank (text s) ->
        strip (text p) <> strip (text s) ->
        text e = if swap then text s ++ sep ++ text p
                 else text p ++ sep ++ text s).
Proof.
  intros Hp Hs. rewrite merge_tlks_result.
  eexists _, (merge_entry p s sep swap). split; [reflexivity|]. split.
  { cbn [entries]. rewrite nth_error_map, nth_error_combine, Hp, Hs.
    reflexivity. }
  unfold merge_entry.
  pose proof (decide_outcome_spec (text p) (text s)) as D.
  destruct (decide_outcome (strip (text p)) (strip (text s)));
    cbn [text].
  - split; [split; [intros _; exact D|intros _; exact blank_nil]|].
    split; [reflexivity|]. repeat split; intros; tauto.
  - split; [tauto|]. split; [tauto|]. repeat split; intros; tauto.
  - split; [tauto|]. split; [tauto|]. repeat split; intros; tauto.
  - assert (Hnb : ~ blank ((if swap then text s else text p) ++ sep
                           ++ (if swap then text p else text s))).
    { rewrite !blank_app. destruct swap; tauto. }
    split; [tauto|]. split; [tauto|].
    split; [tauto|]. split; [tauto|].
    intros _ _ _. destruct swap; reflexivity.
Qed.

Lemma merge_keeps_text_witness :
  exists merged e,
    snd (merge_tlks test_primary test_secondary dash_separator true)
      = Ok merged
    /\ nth_error (entries merged) 0 = Some e
    /\ (blank (text e) <->
        blank (lit "Hallo Welt") /\ blank (lit "Hello World"))
    /\ (blank (text e) -> text e = [])
    /\ (~ blank (lit "Hallo Welt") ->
        strip (lit "Hallo Welt") = strip (lit "Hello World")
        \/ blank (lit "Hello World") ->
        text e = lit "Hallo Welt")
    /\ (blank (lit "Hallo Welt") -> ~ blank (lit "Hello World") ->
        text e = lit "Hello World")
    /\ (~ blank (lit "Hallo Welt") -> ~ blank (lit "Hello World") ->
        strip (lit "Hallo Welt") <> strip (lit "Hello World") ->
        text e = lit "Hello World" ++ dash_separator ++ lit "Hallo Welt").
Proof.
  apply (merge_keeps_text test_primary test_secondary dash_separator true
           0 (test_entry (lit "Hallo Welt")) (test_entry (lit "Hello World")));
    reflexivity.
Defined.

(** X12: the flags of a merged entry are those of the primary entry up to
    bit 0: [has_sound()] and every bit from 1 up are the primary's; when
    both texts are blank [has_text()] is false, when the two texts are
    combined it is true, and when one entry is kept the flags are the
    primary's as they are, whichever text is kept. *)
Theorem merge_flags (P S : TlkFile) (sep : str) (swap : bool)
    (i : nat) (p s : TlkEntry) :
  nth_error (entries P) i = Some p ->
  nth_error (entries S) i = Some s ->
  exists merged e,
    snd (merge_tlks P S sep swap) = Ok merged
    /\ nth_error (entries merged) i = Some e
    /\ (forall k, 1 <= k -> Z.testbit (flags e) k = Z.testbit (flags p) k)
    /\ has_sound e = has_sound p
    /\ (blank (text p) -> blank (text s) -> has_text e = false)
    /\ (~ blank (text p) -> ~ blank (text s) ->
        strip (text p) <> strip (text s) -> has_text e = true)
    /\ (~ blank (text p) ->
        strip (text p) = strip (text s) \/ blank (text s) ->
        flags e = flags p)
    /\ (blank (text p) -> ~ blank (text s) -> flags e = flags p).
Proof.
  intros Hp Hs. rewrite merge_tlks_result.
  eexists _, (merge_entry p s sep swap). split; [reflexivity|]. split.
  { cbn [entries]. rewrite nth_error_map, nth_error_combine, Hp, Hs.
    reflexivity. }
  assert (Hhigh : forall k, 1 <= k ->
            Z.testbit (flags (merge_entry p s sep swap)) k
            = Z.testbit (flags p) k).
  { intros k Hk.
    assert (H1 : Z.testbit FLAG_TEXT k = false).
    { unfold FLAG_TEXT. destruct k; try reflexivity. lia. }
    unfold merge_entry.
    destruct (decide_outcome (strip (text p)) (strip (text s)));
      cbn [flags]; try reflexivity.
    - rewrite Z.land_spec, Z.lnot_spec, H1 by lia. apply andb_true_r.
    - rewrite Z.lor_spec, H1. apply orb_false_r. }
  split; [exact Hhigh|].
  split; [rewrite !has_sound_testbit; apply Hhigh; lia|].
  rewrite has_text_testbit. unfold merge_entry.
  pose proof (decide_outcome_spec (text p) (text s)) as D.
  destruct (decide_outcome (strip (text p)) (strip (text s)));
    cbn [flags].
  - rewrite testbit0_clear. repeat split; intros; tauto.
  - repeat split; intros; tauto.
  - repeat split; intros; tauto.
  - rewrite Z.lor_spec. cbn [FLAG_TEXT Z.testbit]. rewrite orb_true_r.
    repeat split; intros; tauto.
Qed.

Lemma merge_flags_witness :
  exists merged e,
    snd (merge_tlks padded_primary padded_secondary dash_separator false)
      = Ok merged
    /\ nth_error (entries merged) 0 = Some e
    /\ (forall k, 1 <= k -> Z.testbit (flags e) k = Z.testbit 3 k)
    /\ has_sound e = true
    /\ (blank (lit "  Hallo Welt ") -> blank (lit " Hallo Welt") ->
        has_text e = false)
    /\ (~ blank (lit "  Hallo Welt ") -> ~ blank (lit " Hallo Welt") ->
        strip (lit "  Hallo Welt ") <> strip (lit " Hallo Welt") ->
        has_text e = true)
    /\ (~ blank (lit "  Hallo Welt ") ->
        strip (lit "  Hallo Welt ") = strip (lit " Hallo Welt")
        \/ blank (lit " Hallo Welt") ->
        flags e = 3)
    /\ (blank (lit "  Hallo Welt ") -> ~ blank (lit " Hallo Welt") ->
        flags e = 3).
Proof.
  apply (merge_flags padded_primary padded_secondary dash_separator false 0
           (mkTlkEntry (lit "  Hallo Welt ") [x41; x42] 3 5 6)
           (mkTlkEntry (lit " Hallo Welt") [x43] 1 7 8));
    reflexivity.
Defined.

(** X13: [swap] only changes the order in which two texts are joined.
    With and without it, [merge_tlks] prints the same lines and returns
    tables with the same language id whose entries agree, index by index,
    in flags, sound resource name and variances and in the length of the
    text; the texts themselves are equal except where the two texts were
    combined. *)
Theorem merge_swap_only_reorders (P S : TlkFile) (sep : str) :
  exists merged merged',
    snd (merge_tlks P S sep false) = Ok merged
    /\ snd (merge_tlks P S sep true) = Ok merged'
    /\ fst (merge_tlks P S sep false) = fst (merge_tlks P S sep true)
    /\ language_id merged = language_id merged'
    /\ Forall2 (fun e e' =>
                  flags e = flags e'
                  /\ sound_resref e = sound_resref e'
                  /\ volume_variance e = volume_variance e'
                  /\ pitch_variance e = pitch_variance e'
                  /\ length (text e) = length (text e'))
         (entries merged) (entries merged')
    /\ Forall2 (fun ps ee =>
                  is_combine (pair_outcome ps) = false ->
                  fst ee = snd ee)
         (combine (entries P) (entries S))
         (combine (entries merged) (entries merged')).
Proof.
  rewrite !merge_tlks_result. eexists _, _.
  split; [reflexivity|]. split; [reflexivity|]. split.
  { destruct (merge_prints_lines P S sep false) as [-> _].
    destruct (merge_prints_lines P S sep true) as [-> _]. reflexivity. }
  split; [reflexivity|]. cbn [entries].
  induction (combine (entries P) (entries S)) as [|[p s] l IH].
  - split; constructor.
  - destruct IH as [IH1 IH2]. cbn [map combine].
    split; constructor; try assumption.
    + unfold merge_pair, merge_entry. cbn [fst snd].
      destruct (decide_outcome (strip (text p)) (strip (text s)));
        cbn [flags sound_resref volume_variance pitch_variance text];
        repeat split; try reflexivity.
      rewrite !length_app. lia.
    + unfold pair_outcome, merge_pair, merge_entry. cbn [fst snd].
      destruct (decide_outcome (strip (text p)) (strip (text s)));
        cbn [is_combine]; intros H; try reflexivity. discriminate H.
Qed.

(** * [parse_separator] *)

(** ** Scanning for a pattern of two characters *)

Lemma replace_scan_plain a old new s :
  ~ In a s -> replace_scan (a :: old) new 0 s = s.
Proof.
  induction s as [|c s IH]; intros Hn; [reflexivity|].
  cbn [replace_scan starts_with].
  destruct (N.eqb_spec a c) as [->|Hne].
  - exfalso. apply Hn. left. reflexivity.
  - cbn [andb]. rewrite IH; [reflexivity|].
    intros H. apply Hn. right. exact H.
Qed.

Lemma replace_scan_plain_app a old new pre s :
  ~ In a pre ->
  replace_scan (a :: old) new 0 (pre ++ s)
  = pre ++ replace_scan (a :: old) new 0 s.
Proof.
  induction pre as [|c pre IH]; intros Hn; [reflexivity|].
  cbn [app]. cbn [replace_scan starts_with].
  destruct (N.eqb_spec a c) as [->|Hne].
  - exfalso. apply Hn. left. reflexivity.
  - cbn [andb]. rewrite IH; [reflexivity|].
    intros H. apply Hn. right. exact H.
Qed.

(** One step of the scan for the pattern [a b], replaced by [n]. *)
Lemma replace_scan_pair a b n c s :
  replace_scan [a; b] [n] 0 (c :: s) =
  if N.eqb a c && match s with
                  | d :: _ => N.eqb b d
                  | [] => false
                  end
  then n :: replace_scan [a; b] [n] 0 (tl s)
  else c :: replace_scan [a; b] [n] 0 s.
Proof.
  cbn [replace_scan starts_with length Nat.sub app].
  destruct s as [|d s]; cbn [tl].
  - rewrite andb_false_r. reflexivity.
  - rewrite andb_true_r. destruct (N.eqb a c && N.eqb b d); reflexivity.
Qed.

Lemma replace_scan_pair_length a b n : forall m s,
  (length s <= m)%nat ->
  (length (replace_scan [a; b] [n] 0 s) <= length s)%nat.
Proof.
  induction m as [|m IH]; intros [|c s] Hm; try (cbn; lia).
  - cbn [length] in Hm. lia.
  - rewrite replace_scan_pair. cbn [length] in Hm.
    destruct (N.eqb a c && match s with
                           | d :: _ => N.eqb b d
                           | [] => false
                           end).
    + destruct s as [|d s]; cbn [tl length].
      * cbn. lia.
      * cbn [length] in Hm. pose proof (IH s ltac:(lia)). lia.
    + cbn [length]. pose proof (IH s ltac:(lia)). lia.
Qed.

(** The first character after a scan is the replacement or the first
    character before it. *)
Lemma replace_scan_pair_head a b n y s :
  match replace_scan [a; b] [n] 0 s with
  | d :: _ => N.eqb d y
  | [] => false
  end = true ->
  n = y \/ match s with
           | d :: _ => N.eqb d y
           | [] => false
           end = true.
Proof.
  destruct s as [|c s]; [discriminate|].
  rewrite replace_scan_pair.
  destruct (N.eqb a c && match s with
                         | d :: _ => N.eqb b d
                         | [] => false
                         end).
  - intros H. left. apply N.eqb_eq, H.
  - intros H. right. exact H.
Qed.

Lemma has_pair_tail x y c s :
  has_pair x y (c :: s) = false -> has_pair x y s = false.
Proof.
  cbn [has_pair]. intros H. apply orb_false_iff in H. apply H.
Qed.

(** A scan for [a b] adds no pair [x y] when the replacement is neither
    [x] nor [y]. *)
Lemma replace_scan_pair_keeps a b n x y :
  n <> x -> n <> y ->
  forall m s,
    (length s <= m)%nat ->
    has_pair x y s = false ->
    has_pair x y (replace_scan [a; b] [n] 0 s) = false.
Proof.
  intros Hx Hy. induction m as [|m IH]; intros [|c s] Hm Hs;
    try reflexivity.
  - cbn [length] in Hm. lia.
  - rewrite replace_scan_pair. cbn [length] in Hm.
    destruct (N.eqb a c && match s with
                           | d :: _ => N.eqb b d
                           | [] => false
                           end) eqn:E.
    + cbn [has_pair].
      destruct (N.eqb_spec n x) as [Hnx|_]; [contradiction|].
      cbn [andb orb]. apply IH.
      * destruct s; cbn [tl length] in *; lia.
      * apply has_pair_tail in Hs. destruct s as [|d s]; [reflexivity|].
        cbn [tl]. apply has_pair_tail in Hs. exact Hs.
    + cbn [has_pair]. apply orb_false_iff. split.
      * destruct (N.eqb c x) eqn:Ec; [|reflexivity]. cbn [andb].
        destruct (match replace_scan [a; b] [n] 0 s with
                  | d :: _ => N.eqb d y
                  | [] => false
                  end) eqn:Eh; [|reflexivity].
        apply replace_scan_pair_head in Eh.
        destruct Eh as [Eh|Eh]; [contradiction|].
        cbn [has_pair] in Hs. rewrite Ec, Eh in Hs. discriminate Hs.
      * apply IH; [lia|]. apply has_pair_tail in Hs. exact Hs.
Qed.

(** After a scan for [a b] no pair [a b] is left, when the replacement
    is neither [a] nor [b]. *)
Lemma replace_scan_pair_none a b n :
  n <> a -> n <> b ->
  forall m s,
    (length s <= m)%nat ->
    has_pair a b (replace_scan [a; b] [n] 0 s) = false.
Proof.
  intros Ha Hb. induction m as [|m IH]; intros [|c s] Hm;
    try reflexivity.
  - cbn [length] in Hm. lia.
  - rewrite replace_scan_pair. cbn [length] in Hm.
    destruct (N.eqb a c && match s with
                           | d :: _ => N.eqb b d
                           | [] => false
                           end) eqn:E.
    + cbn [has_pair].
      destruct (N.eqb_spec n a) as [Hna|_]; [contradiction|].
      cbn [andb orb]. apply IH.
      destruct s; cbn [tl length] in *; lia.
    + cbn [has_pair]. apply orb_false_iff. split.
      * destruct (N.eqb_spec c a) as [->|_]; [|reflexivity]. cbn [andb].
        rewrite N.eqb_refl in E. cbn [andb] in E.
        destruct (match replace_scan [a; b] [n] 0 s with
                  | d :: _ => N.eqb d b
                  | [] => false
                  end) eqn:Eh; [|reflexivity].
        apply replace_scan_pair_head in Eh.
        destruct Eh as [Eh|Eh]; [contradiction|].
        destruct s as [|d s]; [discriminate Eh|].
        rewrite N.eqb_sym in E. rewrite Eh in E. discriminate E.
      * apply IH. lia.
Qed.

(** ** The separator of the command line *)

(** X14: a separator without backslash is taken as it is. *)
Theorem parse_separator_plain (sep_str : str) :
  ~ In backslash sep_str -> parse_separator sep_str = sep_str.
Proof.
  intros H. unfold parse_separator, replace.
  rewrite (replace_scan_plain backslash _ _ _ H).
  apply replace_scan_plain, H.
Qed.

Lemma parse_separator_plain_witness :
  parse_separator dash_separator = dash_separator.
Proof.
  apply (parse_separator_plain dash_separator).
  vm_compute. intuition discriminate.
Defined.

(** X15: after a stretch without backslash, the two characters [\n]
    become one line feed and the two characters [\t] become one tab, and
    the rest of the separator is treated in the same way. *)
Theorem parse_separator_escape (pre rest : str) :
  ~ In backslash pre ->
  parse_separator (pre ++ [backslash; 110%N] ++ rest)
    = pre ++ [10%N] ++ parse_separator rest
  /\ parse_separator (pre ++ [backslash; 116%N] ++ rest)
    = pre ++ [9%N] ++ parse_separator rest.
Proof.
  intros H. unfold parse_separator, replace. split.
  - rewrite (replace_scan_plain_app backslash _ _ pre _ H).
    cbn [app]. rewrite replace_scan_pair. cbn [N.eqb backslash Pos.eqb andb tl].
    rewrite (replace_scan_plain_app backslash _ _ pre _ H).
    rewrite replace_scan_pair. reflexivity.
  - rewrite (replace_scan_plain_app backslash _ _ pre _ H).
    cbn [app]. rewrite replace_scan_pair. cbn [N.eqb backslash Pos.eqb andb].
    rewrite replace_scan_pair. cbn [N.eqb backslash Pos.eqb andb].
    rewrite (replace_scan_plain_app backslash _ _ pre _ H).
    rewrite replace_scan_pair. cbn [N.eqb backslash Pos.eqb andb tl].
    reflexivity.
Qed.

Lemma parse_separator_escape_witness :
  parse_separator ([] ++ [backslash; 110%N] ++ lit "---")
    = [] ++ [10%N] ++ parse_separator (lit "---")
  /\ parse_separator ([] ++ [backslash; 116%N] ++ lit "---")
    = [] ++ [9%N] ++ parse_separator (lit "---").
Proof.
  apply (parse_separator_escape [] (lit "---")).
  intros H. exact H.
Defined.

(** X16: the separator that [parse_separator] returns holds neither the
    two characters [\n] nor the two characters [\t] any more, and is not
    longer than its argument. *)
Theorem parse_separator_unescapes (sep_str : str) :
  has_pair backslash 110 (parse_separator sep_str) = false
  /\ has_pair backslash 116 (parse_separator sep_str) = false
  /\ (length (parse_separator sep_str) <= length sep_str)%nat.
Proof.
  unfold parse_separator, replace.
  set (s1 := replace_scan [backslash; 110%N] [10%N] 0 sep_str).
  assert (H1 : has_pair backslash 110 s1 = false).
  { apply (replace_scan_pair_none backslash 110 10) with (m := length sep_str);
      [discriminate|discriminate|lia]. }
  assert (L1 : (length s1 <= length sep_str)%nat).
  { apply replace_scan_pair_length with (m := length sep_str). lia. }
  split; [|split].
  - apply (replace_scan_pair_keeps backslash 116 9 backslash 110)
      with (m := length s1); [discriminate|discriminate|lia|exact H1].
  - apply (replace_scan_pair_none backslash 116 9) with (m := length s1);
      [discriminate|discriminate|lia].
  - pose proof (replace_scan_pair_length backslash 116 9 (length s1) s1
                  ltac:(lia)).
    lia.
Qed.

(** The default of [--separator] is the separator of the merge
    scenarios. *)
Example parse_separator_default :
  parse_separator default_separator_argument = dash_separator.
Proof. reflexivity. Qed.

(** * [TlkFile.dump] *)

Lemma nth_error_enumerate {A} (l : list A) i x :
  nth_error l i = Some x -> nth_error (enumerate l) i = Some (i, x).
Proof.
  intros H. unfold enumerate. rewrite nth_error_combine, nth_error_seq, H.
  assert (i < length l)%nat by (apply nth_error_Some; congruence).
  destruct (Nat.ltb_spec i (length l)); [reflexivity|lia].
Qed.

Lemma length_enumerate {A} (l : list A) : length (enumerate l) = length l.
Proof.
  unfold enumerate. rewrite length_combine, length_seq. lia.
Qed.

Lemma getslice_0_80 (s : str) : getslice s 0 80 = firstn 80 s.
Proof. apply (getslice_clamped s 0 80); lia. Qed.

Lemma dump_lines_app show_empty l1 l2 :
  dump_lines show_empty (l1 ++ l2)
  = dump_lines show_empty l1 ++ dump_lines show_empty l2.
Proof. unfold dump_lines. rewrite filter_app, map_app. reflexivity. Qed.

(** The loop of [dump] prints the lines of the entries that it goes
    through, and raises nothing while it stays inside the table. *)
Lemma dump_loop_lines self show_empty n : forall i out,
  (i + n <= length (entries self))%nat ->
  dump_loop self show_empty n i out =
  (out ++ dump_lines show_empty
            (firstn n (skipn i (enumerate (entries self)))),
   Ok tt).
Proof.
  induction n as [|n IH]; intros i out Hn; cbn [dump_loop].
  - cbn [firstn]. unfold dump_lines. cbn. rewrite app_nil_r. reflexivity.
  - destruct (nth_error (entries self) i) as [e|] eqn:E.
    2:{ apply nth_error_None in E. lia. }
    rewrite (getitem_Some _ _ _ E). unfold Ok at 1. cbn beta iota.
    rewrite (firstn_skipn_S _ _ _ _ (nth_error_enumerate _ _ _ E)).
    change ((i, e) :: ?l) with ([(i, e)] ++ l).
    rewrite dump_lines_app.
    unfold dump_lines at 1. cbn [filter map fst snd]. unfold dump_lists.
    destruct show_empty; cbn [negb andb orb].
    + rewrite IH by lia. rewrite getslice_0_80, <- app_assoc.
      reflexivity.
    + destruct (truthy (strip (text e))); cbn [negb map app].
      * rewrite IH by lia. rewrite getslice_0_80, <- app_assoc.
        reflexivity.
      * rewrite IH by lia. reflexivity.
Qed.

Lemma dump_limit_bound total max_entries :
  0 <= total -> dump_limit total max_entries <= total.
Proof.
  intros H. unfold dump_limit. destruct max_entries as [m|]; [|lia].
  destruct (m =? 0); lia.
Qed.

Lemma dump_closed_form self max_entries show_empty :
  dump self max_entries show_empty =
  (DumpHeader (len (entries self)) (language_id self)
   :: dump_lines show_empty
        (firstn (Z.to_nat (dump_limit (len (entries self)) max_entries))
           (enumerate (entries self))),
   Ok tt).
Proof.
  unfold dump.
  pose proof (dump_limit_bound (len (entries self)) max_entries
                (len_nonneg _)) as Hb.
  rewrite dump_loop_lines by (unfold len in *; lia).
  reflexivity.
Qed.

(** X17: [dump] raises nothing.  It prints the line with the number of
    entries and the language id, then, in the order of the table, one line
    for each entry below the limit whose text is not blank (for each entry
    below the limit when [show_empty] is set), with the index, the flags,
    the sound resource name without its trailing NUL bytes and the first
    80 characters of the text; an entry at or after the limit is not
    printed. *)
Theorem dump_prints (self : TlkFile) (max_entries : option Z)
    (show_empty : bool) :
  let limit := dump_limit (len (entries self)) max_entries in
  exists lines,
    dump self max_entries show_empty =
      (DumpHeader (len (entries self)) (language_id self) :: lines, Ok tt)
    /\ lines = dump_lines show_empty
                 (firstn (Z.to_nat limit) (enumerate (entries self)))
    /\ (forall i e,
          nth_error (entries self) i = Some e ->
          (In (dump_entry_line i e) lines <->
           Z.of_nat i < limit /\ dump_lists show_empty e = true))
    /\ len lines <= Z.max 0 limit.
Proof.
  intros limit. eexists. split; [apply dump_closed_form|].
  split; [reflexivity|]. fold limit. split.
  - intros i e Hn. unfold dump_lines. rewrite in_map_iff. split.
    + intros ([j e'] & Hline & Hin). cbn [fst snd] in Hline.
      apply filter_In in Hin. destruct Hin as [Hin Hl]. cbn [snd] in Hl.
      apply In_nth_error in Hin. destruct Hin as [k Hk].
      assert (Hkl : (k < Z.to_nat limit)%nat).
      { assert (Hlt : (k < length (firstn (Z.to_nat limit)
                                     (enumerate (entries self))))%nat)
          by (apply nth_error_Some; congruence).
        rewrite length_firstn in Hlt. lia. }
      rewrite nth_error_firstn in Hk.
      destruct (Nat.ltb_spec k (Z.to_nat limit)); [|lia].
      destruct (nth_error (entries self) k) as [ek|] eqn:Ek.
      2:{ apply nth_error_None in Ek.
          assert (Hlt : (k < length (enumerate (entries self)))%nat)
            by (apply nth_error_Some; congruence).
          rewrite length_enumerate in Hlt. lia. }
      rewrite (nth_error_enumerate _ _ _ Ek) in Hk.
      inversion Hk; subst j e'.
      unfold dump_entry_line in Hline. inversion Hline as [[Hi Hf Hs Ht]].
      apply Nat2Z.inj in Hi. subst k.
      rewrite Ek in Hn. inversion Hn; subst ek.
      split; [lia|exact Hl].
    + intros [Hi Hl]. exists (i, e). split; [reflexivity|].
      apply filter_In. split; [|exact Hl].
      apply nth_error_In with (n := i).
      rewrite nth_error_firstn.
      destruct (Nat.ltb_spec i (Z.to_nat limit)); [|lia].
      apply nth_error_enumerate, Hn.
  - unfold dump_lines, len. rewrite length_map.
    pose proof (filter_length_le
                  (fun ie : nat * TlkEntry => dump_lists show_empty (snd ie))
                  (firstn (Z.to_nat limit) (enumerate (entries self)))) as Hf.
    rewrite length_firstn in Hf. lia.
Qed.

(** X18: the limit of [dump].  A limit of 0 is no limit, like no limit at
    all: every entry is gone through.  A negative limit prints the first
    line only.  A limit at or above the number of entries changes
    nothing. *)
Theorem dump_limit_edges (self : TlkFile) (show_empty : bool) (m : Z) :
  dump self (Some 0) show_empty = dump self None show_empty
  /\ (m < 0 ->
      dump self (Some m) show_empty =
      ([DumpHeader (len (entries self)) (language_id self)], Ok tt))
  /\ (len (entries self) <= m ->
      dump self (Some m) show_empty = dump self None show_empty).
Proof.
  rewrite !dump_closed_form. split; [reflexivity|]. split.
  - intros Hm. cbn [dump_limit].
    destruct (Z.eqb_spec m 0); [lia|].
    pose proof (len_nonneg (entries self)).
    rewrite Z.min_r by lia.
    replace (Z.to_nat m) with 0%nat by lia. reflexivity.
  - intros Hm. cbn [dump_limit].
    destruct (Z.eqb_spec m 0); [reflexivity|].
    rewrite Z.min_l by lia. reflexivity.
Qed.

(** ** Dumping a table that was written and read *)

Lemma lstrip_nul_repeat k b : lstrip_nul (repeat x00 k ++ b) = lstrip_nul b.
Proof. induction k as [|k IH]; [reflexivity|]. exact IH. Qed.

Lemma rev_repeat {A} (a : A) k : rev (repeat a k) = repeat a k.
Proof.
  induction k as [|k IH]; [reflexivity|].
  cbn [repeat rev]. rewrite IH. symmetry. apply repeat_cons.
Qed.

(** The NUL bytes that pad a sound resource name do not show. *)
Lemma rstrip_nul_pack_s b :
  (length b <= 8)%nat -> rstrip_nul (pack_s 8 b) = rstrip_nul b.
Proof.
  intros H. unfold pack_s, rstrip_nul.
  rewrite firstn_all2 by lia.
  rewrite rev_app_distr, rev_repeat, lstrip_nul_repeat. reflexivity.
Qed.

Lemma enumerate_from_map {A B} (f : A -> B) (l : list A) k :
  combine (seq k (length (map f l))) (map f l)
  = map (fun ie => (fst ie, f (snd ie))) (combine (seq k (length l)) l).
Proof.
  revert k. induction l as [|a l IH]; intros k; [reflexivity|].
  cbn [map length seq combine fst snd]. rewrite IH. reflexivity.
Qed.

Lemma In_firstn {A} (x : A) n l : In x (firstn n l) -> In x l.
Proof.
  intros H. rewrite <- (firstn_skipn n l). apply in_or_app. left. exact H.
Qed.

Lemma dump_lines_reread encoding show_empty (l : list (nat * TlkEntry)) :
  Forall (fun ie => representable encoding (text (snd ie))
                    /\ (length (sound_resref (snd ie)) <= 8)%nat) l ->
  map line_without_flags
    (dump_lines show_empty
       (map (fun ie => (fst ie, reread encoding (snd ie))) l))
  = map line_without_flags (dump_lines show_empty l).
Proof.
  unfold dump_lines.
  induction 1 as [|[i e] l [Hr Hs] _ IH]; [reflexivity|].
  cbn [snd] in Hr, Hs. cbn [map filter fst snd].
  assert (Hl : dump_lists show_empty (reread encoding e)
               = dump_lists show_empty e).
  { unfold dump_lists, reread. cbn [text]. rewrite Hr. reflexivity. }
  rewrite Hl. destruct (dump_lists show_empty e); [|exact IH].
  cbn [map fst snd]. rewrite IH. f_equal.
  unfold dump_entry_line, reread.
  cbn [line_without_flags text sound_resref flags].
  rewrite Hr, (rstrip_nul_pack_s _ Hs). reflexivity.
Qed.

(** X19: what [dump] shows of a table survives writing and reading.  For
    a table that is encoded with texts that the codec represents and sound
    resource names of at most 8 bytes, [dump] of the decoded table prints
    the lines that [dump] of the table prints, up to the flags: the same
    entries with the same sound resource names and texts. *)
Theorem dump_after_roundtrip (self : TlkFile) (encoding : codec)
    (max_entries : option Z) (show_empty : bool) :
  packable self encoding ->
  Forall (fun e => representable encoding (text e)
                   /\ (length (sound_resref e) <= 8)%nat) (entries self) ->
  exists buf decoded,
    to_bytes self encoding = Ok buf
    /\ _parse buf encoding = Ok decoded
    /\ map line_without_flags (fst (dump decoded max_entries show_empty))
       = map line_without_flags (fst (dump self max_entries show_empty))
    /\ snd (dump decoded max_entries show_empty) = Ok tt.
Proof.
  intros Hp Hr.
  exists (layout self encoding),
    (mkTlkFile (language_id self) (map (reread encoding) (entries self))).
  split; [apply to_bytes_layout, Hp|].
  split; [apply parse_layout, Hp|].
  rewrite !dump_closed_form. cbn [fst snd language_id entries].
  split; [|reflexivity].
  assert (Hlen : len (map (reread encoding) (entries self))
                 = len (entries self))
    by (unfold len; rewrite length_map; reflexivity).
  rewrite Hlen. cbn [map line_without_flags]. f_equal.
  unfold enumerate. rewrite enumerate_from_map, firstn_map.
  apply dump_lines_reread.
  apply Forall_forall. intros [i e] Hin. cbn [snd].
  apply In_firstn in Hin. apply in_combine_r in Hin.
  rewrite Forall_forall in Hr. apply Hr, Hin.
Qed.

Lemma dump_after_roundtrip_witness :
  exists buf decoded,
    to_bytes dump_table cp1252 = Ok buf
    /\ _parse buf cp1252 = Ok decoded
    /\ map line_without_flags (fst (dump decoded (Some 2) false))
       = map line_without_flags (fst (dump dump_table (Some 2) false))
    /\ snd (dump decoded (Some 2) false) = Ok tt.
Proof.
  apply (dump_after_roundtrip dump_table cp1252 (Some 2) false).
  - packable_by_evaluation.
  - repeat constructor.
Defined.

(** * Ranges of the fields *)

Lemma from_le_bound bs : from_le bs < 256 ^ len bs.
Proof.
  induction bs as [|b bs IH]; [reflexivity|].
  cbn [from_le]. replace (len (b :: bs)) with (Z.succ (len bs))
    by (unfold len; cbn [length]; lia).
  rewrite Z.pow_succ_r by apply len_nonneg.
  pose proof (Z_of_byte_range b). lia.
Qed.

Lemma len_field data off a b : len (field data off a b) <= Z.max 0 (b - a).
Proof.
  unfold field, len. rewrite length_firstn. lia.
Qed.

Lemma from_le_field_bound data off a b :
  0 <= b - a -> 0 <= from_le (field data off a b) < 256 ^ (b - a).
Proof.
  intros H. split; [apply from_le_nonneg|].
  pose proof (from_le_bound (field data off a b)) as Hb.
  pose proof (len_field data off a b) as Hl.
  pose proof (len_nonneg (field data off a b)) as H0.
  assert (256 ^ len (field data off a b) <= 256 ^ (b - a))
    by (apply Z.pow_le_mono_r; lia).
  lia.
Qed.

Lemma length_field_exact data off a b :
  0 <= off + a -> a <= b -> off + b <= len data ->
  length (field data off a b) = Z.to_nat (b - a).
Proof.
  unfold field, len. intros H0 Hab Hl.
  rewrite length_firstn, length_skipn. lia.
Qed.

Lemma parse_Ok_inv data encoding decoded :
  _parse data encoding = Ok decoded ->
  exists lang n string_base,
    unpack_hdr data 0
      = Ok (TLK_SIGNATURE, TLK_VERSION, lang, n, string_base)
    /\ 0 <= n
    /\ _HDR_SIZE + n * _ENTRY_SIZE <= len data
    /\ decoded = mkTlkFile lang
                   (map (entry_at encoding data string_base)
                      (seq 0 (Z.to_nat n))).
Proof.
  intros H.
  destruct (Z_lt_le_dec (len data) 18) as [Hs|H18].
  { rewrite (parse_short_buffer _ _ Hs) in H. discriminate H. }
  destruct (list_eq_dec Byte.byte_eq_dec (firstn 4 data) TLK_SIGNATURE)
    as [Hsig|Hsig].
  2:{ destruct (parse_rejects_tags_value_error data encoding H18
                  (or_introl Hsig)) as [m Hm].
      rewrite Hm in H. discriminate H. }
  destruct (list_eq_dec Byte.byte_eq_dec (firstn 4 (skipn 4 data))
              TLK_VERSION) as [Hver|Hver].
  2:{ destruct (parse_rejects_tags_value_error data encoding H18
                  (or_intror Hver)) as [m Hm].
      rewrite Hm in H. discriminate H. }
  pose proof (unpack_hdr_long _ H18) as Hhdr. rewrite Hsig, Hver in Hhdr.
  rewrite (parse_with_tags _ encoding _ _ _ Hhdr) in H.
  destruct (unpack_hdr_Ok_inv _ _ _ _ _ _ Hhdr) as (_ & _ & _ & Hn & _).
  destruct (Z.ltb_spec (len data)
              (_HDR_SIZE + from_le (field data 0 10 14) * _ENTRY_SIZE))
    as [Hlt|Hge]; [discriminate H|].
  eexists _, _, _. split; [exact Hhdr|]. split; [exact Hn|].
  split; [exact Hge|]. inversion H. reflexivity.
Qed.

(** X20: whatever the buffer, the fields of a decoded table are in the
    ranges of the format: the language id and the flags of every entry
    fit 16 bits, the two variances of every entry fit 32 bits, and the
    sound resource name of every entry has exactly 8 bytes. *)
Theorem parse_fields_in_range (data : bytes) (encoding : codec)
    (decoded : TlkFile) :
  _parse data encoding = Ok decoded ->
  u16 (language_id decoded)
  /\ Forall (fun e => packable_entry e /\ length (sound_resref e) = 8%nat)
       (entries decoded).
Proof.
  intros H.
  destruct (parse_Ok_inv _ _ _ H)
    as (lang & n & sb & Hhdr & Hn & Hlen & ->).
  destruct (unpack_hdr_Ok_inv _ _ _ _ _ _ Hhdr) as (H18 & _).
  rewrite (unpack_hdr_long _ H18) in Hhdr.
  injection Hhdr as _ _ Hlang _ _.
  cbn [language_id entries]. split.
  - rewrite <- Hlang. unfold u16.
    pose proof (from_le_field_bound data 0 8 10 ltac:(lia)) as Hb.
    change (256 ^ (10 - 8)) with 65536 in Hb. lia.
  - apply Forall_forall. intros e Hin.
    apply in_map_iff in Hin. destruct Hin as (i & <- & Hi).
    apply in_seq in Hi.
    unfold entry_at, packable_entry, u16, u32.
    cbn [flags volume_variance pitch_variance sound_resref].
    pose proof (from_le_field_bound data (entry_offset i) 0 2 ltac:(lia))
      as Hf.
    pose proof (from_le_field_bound data (entry_offset i) 10 14 ltac:(lia))
      as Hv.
    pose proof (from_le_field_bound data (entry_offset i) 14 18 ltac:(lia))
      as Hp.
    change (256 ^ (2 - 0)) with 65536 in Hf.
    change (256 ^ (14 - 10)) with 4294967296 in Hv.
    change (256 ^ (18 - 14)) with 4294967296 in Hp.
    split; [lia|].
    rewrite length_field_exact; [reflexivity| | |];
      unfold entry_offset, _HDR_SIZE, _ENTRY_SIZE in *; lia.
Qed.

Lemma parse_fields_in_range_witness :
  u16 (language_id (mkTlkFile 0 [mkTlkEntry (lit "Hi") (repeat x00 8) 1 0 0]))
  /\ Forall (fun e => packable_entry e /\ length (sound_resref e) = 8%nat)
       (entries (mkTlkFile 0 [mkTlkEntry (lit "Hi") (repeat x00 8) 1 0 0])).
Proof.
  apply (parse_fields_in_range truncated_buffer cp1252).
  reflexivity.
Defined.

(** X21: the merge keeps the fields in their ranges.  When the flags of
    the primary entries fit 16 bits and their variances fit 32 bits, so do
    those of the merged entries, whatever the secondary table holds. *)
Theorem merge_keeps_fields_in_range (P S : TlkFile) (sep : str)
    (swap : bool) :
  Forall packable_entry (entries P) ->
  exists merged,
    snd (merge_tlks P S sep swap) = Ok merged
    /\ Forall packable_entry (entries merged).
Proof.
  intros HP. rewrite merge_tlks_result. eexists. split; [reflexivity|].
  cbn [entries]. apply Forall_forall. intros e Hin.
  apply in_map_iff in Hin. destruct Hin as ([p s] & <- & Hin).
  apply in_combine_l in Hin. rewrite Forall_forall in HP.
  destruct (HP p Hin) as (Hf & Hv & Hpi).
  unfold merge_pair, merge_entry. cbn [fst snd].
  unfold u16 in Hf.
  pose proof (Z.div_mod (flags p) 2 ltac:(lia)) as Hd.
  pose proof (Z.mod_pos_bound (flags p) 2 ltac:(lia)) as Hm.
  destruct (decide_outcome (strip (text p)) (strip (text s)));
    unfold packable_entry, u16;
    cbn [flags volume_variance pitch_variance];
    rewrite ?lor_FLAG_TEXT, ?land_not_FLAG_TEXT;
    (split; [lia|split; assumption]).
Qed.

Lemma merge_keeps_fields_in_range_witness :
  exists merged,
    snd (merge_tlks test_primary test_secondary dash_separator true)
      = Ok merged
    /\ Forall packable_entry (entries merged).
Proof.
  apply (merge_keeps_fields_in_range test_primary test_secondary
           dash_separator true).
  unfold test_primary, test_pairs. cbn [entries map fst].
  repeat (apply Forall_cons; [vm_compute; intuition discriminate|]).
  apply Forall_nil.
Defined.
